(** * MixedSchema (src/mixed.ts): schema composition and resolution engine

    A shallow embedding of the [MixedSchema] class and of its [RefSet]
    helper.  Schema objects, their [tests] arrays and their [_exclusive]
    tables are JavaScript objects that the code aliases and mutates in
    place, so they live in an explicit store and are named by locations.
    The other fields ([spec], [_whitelist], [conditions], ...) are never
    shared between two schema objects by the code modelled here and are
    kept by value inside the schema cell. *)

From stdpp Require Import base option list gmap strings fin_maps.
From Stdlib Require Import ZArith Lia.

#[local] Set Warnings "-clear-no-such-hyp".

Open Scope string_scope.
Open Scope list_scope.

(** ** Values *)

(** Locations in the store. *)
Abbreviation loc := nat (only parsing).

(** The JavaScript values a schema can hold or be asked about.  Numbers are
    integers; functions, schema nodes and references are compared by identity
    ([===]): a function by its identifier, a schema node by its location, a
    [Reference] by the key under which [RefSet] files it. *)
Inductive jsval : Type :=
  | VUndef
  | VNull
  | VBool (b : bool)
  | VNum (z : Z)
  | VStr (s : string)
  | VFun (id : nat)
  | VSchema (l : loc)
  | VRef (key : string).

#[global] Instance jsval_eq_dec : EqDecision jsval.
Proof. solve_decision. Defined.

(** [isSchema(value)] and [Ref.isRef(value)]. *)
Definition isSchema (v : jsval) : bool :=
  match v with VSchema _ => true | _ => false end.

Definition isRef (v : jsval) : bool :=
  match v with VRef _ => true | _ => false end.

(** A message is a literal template or an entry of the locale table
    ([locale.default], [locale.notType], [locale.oneOf], ...). *)
Inductive Message : Type :=
  | Msg (s : string)
  | LocaleMsg (entry : string).

#[global] Instance Message_eq_dec : EqDecision Message.
Proof. solve_decision. Defined.

(** Test functions.  User functions are told apart by identity; the three
    synthesized tests have their bodies in mixed.ts. *)
Inductive TestFunction : Type :=
  | UserFn (id : nat)
  | TypeErrorFn
  | OneOfFn
  | NotOneOfFn.

#[global] Instance TestFunction_eq_dec : EqDecision TestFunction.
Proof. solve_decision. Defined.

(** [TestConfig]: [name], [message] and [test] may be absent ([undefined]);
    [exclusive] is only ever tested for truthiness. *)
Record TestConfig : Type := mkTestConfig {
  name : option string;
  message : option Message;
  exclusive : bool;
  test_fn : option TestFunction
}.

#[global] Instance TestConfig_eq_dec : EqDecision TestConfig.
Proof. solve_decision. Defined.

(** The validator built by [createValidation]; mixed.ts reads only its
    [OPTIONS] property. *)
Record Test : Type := mkTest { OPTIONS : TestConfig }.

#[global] Instance Test_eq_dec : EqDecision Test.
Proof. solve_decision. Defined.

Definition createValidation (opts : TestConfig) : Test := mkTest opts.

(** ** RefSet *)

Module RefSet.

(** [list] is a [Set] (insertion ordered, no duplicates) of literal values,
    [refs] a [Map] from reference key to reference. *)
Record t : Type := mk {
  list : Datatypes.list jsval;
  refs : Datatypes.list (string * jsval)
}.

Definition empty : t := mk [] [].

Definition size (s : t) : nat := length (list s) + length (refs s).

Definition set_add (v : jsval) (l : Datatypes.list jsval) : Datatypes.list jsval :=
  if bool_decide (v ∈ l) then l else l ++ [v].

Definition set_delete (v : jsval) (l : Datatypes.list jsval) : Datatypes.list jsval :=
  filter (λ x, x ≠ v) l.

Fixpoint map_set (k : string) (v : jsval) (m : Datatypes.list (string * jsval))
  : Datatypes.list (string * jsval) :=
  match m with
  | [] => [(k, v)]
  | (k', v') :: m' =>
      if bool_decide (k' = k) then (k, v) :: m' else (k', v') :: map_set k v m'
  end.

Definition map_delete (k : string) (m : Datatypes.list (string * jsval))
  : Datatypes.list (string * jsval) :=
  filter (λ kv, kv.1 ≠ k) m.

Definition add (value : jsval) (s : t) : t :=
  match value with
  | VRef key => mk (list s) (map_set key value (refs s))
  | _ => mk (set_add value (list s)) (refs s)
  end.

Definition delete (value : jsval) (s : t) : t :=
  match value with
  | VRef key => mk (list s) (map_delete key (refs s))
  | _ => mk (set_delete value (list s)) (refs s)
  end.

(** [has(value, resolve)]: a literal hit, or some stored reference that
    resolves to the value. *)
Definition has (value : jsval) (resolve : jsval → jsval) (s : t) : bool :=
  if bool_decide (value ∈ list s) then true
  else existsb (λ kv, bool_decide (resolve kv.2 = value)) (refs s).

Definition toArray (s : t) : Datatypes.list jsval :=
  list s ++ map snd (refs s).

Definition clone (s : t) : t := mk (list s) (refs s).

Definition merge (newItems removeItems : t) (s : t) : t :=
  let next := clone s in
  let next := foldl (λ n v, add v n) next (list newItems) in
  let next := foldl (λ n kv, add kv.2 n) next (refs newItems) in
  let next := foldl (λ n v, delete v n) next (list removeItems) in
  let next := foldl (λ n kv, delete kv.2 n) next (refs removeItems) in
  next.

End RefSet.

(** ** Schema nodes and the store *)

(** The [UNSET] sentinel of mixed.ts. *)
Definition UNSET : jsval := VStr "@@UNSET_DEFAULT".

Record SchemaSpec : Type := mkSpec {
  nullable : bool;
  default : jsval;
  hasDefault : bool;
  abortEarly : bool;
  strip : bool;
  strict : bool;
  recursive : bool;
  label : option string;
  meta : jsval
}.

(** A pending condition ([Condition] object); its behaviour is given by the
    collaborator [Condition.resolve], see [Collaborators] below. *)
Definition Condition := nat.

(** A schema object.  [_exclusive] and [tests] hold the location of the
    table and of the array; [_mutate] is [false] when the property is
    [undefined]. *)
Record schema : Type := mkSchema {
  type : string;
  deps : list string;
  _exclusive : loc;
  _whitelist : RefSet.t;
  _blacklist : RefSet.t;
  tests : loc;
  transforms : list nat;
  _mutate : bool;
  _label : option string;
  _meta : list (string * jsval);
  conditions : list Condition;
  _typeError : option Test;
  _whitelistError : option Test;
  _blacklistError : option Test;
  spec : SchemaSpec
}.

Definition set_spec (f : SchemaSpec → SchemaSpec) (s : schema) : schema :=
  mkSchema (type s) (deps s) (_exclusive s) (_whitelist s) (_blacklist s)
    (tests s) (transforms s) (_mutate s) (_label s) (_meta s) (conditions s)
    (_typeError s) (_whitelistError s) (_blacklistError s) (f (spec s)).

Definition set_tests (a : loc) (s : schema) : schema :=
  mkSchema (type s) (deps s) (_exclusive s) (_whitelist s) (_blacklist s)
    a (transforms s) (_mutate s) (_label s) (_meta s) (conditions s)
    (_typeError s) (_whitelistError s) (_blacklistError s) (spec s).

Definition set_exclusive (e : loc) (s : schema) : schema :=
  mkSchema (type s) (deps s) e (_whitelist s) (_blacklist s)
    (tests s) (transforms s) (_mutate s) (_label s) (_meta s) (conditions s)
    (_typeError s) (_whitelistError s) (_blacklistError s) (spec s).

Definition set_mutate (b : bool) (s : schema) : schema :=
  mkSchema (type s) (deps s) (_exclusive s) (_whitelist s) (_blacklist s)
    (tests s) (transforms s) b (_label s) (_meta s) (conditions s)
    (_typeError s) (_whitelistError s) (_blacklistError s) (spec s).

Definition set_conditions (c : list Condition) (s : schema) : schema :=
  mkSchema (type s) (deps s) (_exclusive s) (_whitelist s) (_blacklist s)
    (tests s) (transforms s) (_mutate s) (_label s) (_meta s) c
    (_typeError s) (_whitelistError s) (_blacklistError s) (spec s).

Definition set_lists (w b : RefSet.t) (s : schema) : schema :=
  mkSchema (type s) (deps s) (_exclusive s) w b
    (tests s) (transforms s) (_mutate s) (_label s) (_meta s) (conditions s)
    (_typeError s) (_whitelistError s) (_blacklistError s) (spec s).

Definition set_typeError (t : option Test) (s : schema) : schema :=
  mkSchema (type s) (deps s) (_exclusive s) (_whitelist s) (_blacklist s)
    (tests s) (transforms s) (_mutate s) (_label s) (_meta s) (conditions s)
    t (_whitelistError s) (_blacklistError s) (spec s).

Definition set_whitelistError (t : option Test) (s : schema) : schema :=
  mkSchema (type s) (deps s) (_exclusive s) (_whitelist s) (_blacklist s)
    (tests s) (transforms s) (_mutate s) (_label s) (_meta s) (conditions s)
    (_typeError s) t (_blacklistError s) (spec s).

Definition set_blacklistError (t : option Test) (s : schema) : schema :=
  mkSchema (type s) (deps s) (_exclusive s) (_whitelist s) (_blacklist s)
    (tests s) (transforms s) (_mutate s) (_label s) (_meta s) (conditions s)
    (_typeError s) (_whitelistError s) t (spec s).

Definition set_transforms (t : list nat) (s : schema) : schema :=
  mkSchema (type s) (deps s) (_exclusive s) (_whitelist s) (_blacklist s)
    (tests s) t (_mutate s) (_label s) (_meta s) (conditions s)
    (_typeError s) (_whitelistError s) (_blacklistError s) (spec s).

Definition set_meta (m : list (string * jsval)) (s : schema) : schema :=
  mkSchema (type s) (deps s) (_exclusive s) (_whitelist s) (_blacklist s)
    (tests s) (transforms s) (_mutate s) (_label s) m (conditions s)
    (_typeError s) (_whitelistError s) (_blacklistError s) (spec s).

Definition set_default (d : jsval) (sp : SchemaSpec) : SchemaSpec :=
  mkSpec (nullable sp) d (hasDefault sp) (abortEarly sp) (strip sp)
    (strict sp) (recursive sp) (label sp) (meta sp).

Definition set_hasDefault (b : bool) (sp : SchemaSpec) : SchemaSpec :=
  mkSpec (nullable sp) (default sp) b (abortEarly sp) (strip sp)
    (strict sp) (recursive sp) (label sp) (meta sp).

Definition set_nullable (b : bool) (sp : SchemaSpec) : SchemaSpec :=
  mkSpec b (default sp) (hasDefault sp) (abortEarly sp) (strip sp)
    (strict sp) (recursive sp) (label sp) (meta sp).

Definition set_strict (b : bool) (sp : SchemaSpec) : SchemaSpec :=
  mkSpec (nullable sp) (default sp) (hasDefault sp) (abortEarly sp) (strip sp)
    b (recursive sp) (label sp) (meta sp).

Definition set_abortEarly (b : bool) (sp : SchemaSpec) : SchemaSpec :=
  mkSpec (nullable sp) (default sp) (hasDefault sp) b (strip sp)
    (strict sp) (recursive sp) (label sp) (meta sp).

(** The store: schema objects, [tests] arrays, [_exclusive] tables.  A new
    object takes the next free location of its kind.  A table holds its own
    properties; [protos] is the set of the tables that inherit from
    [Object.prototype]: the table the class creates with
    [Object.create(null)] does not, the plain object that a deep copy puts in
    its place does. *)
Record heap : Type := mkHeap {
  schemas : list schema;
  arrays : list (list Test);
  tables : list (gmap string bool);
  protos : gset nat
}.

Definition empty_heap : heap := mkHeap [] [] [] ∅.

(** ** Computations: store passing with thrown errors *)

(** What a call can end with instead of a result: a [TypeError] thrown by a
    builder, the [TypeError] thrown by [cast], and two outcomes that only the
    model has (a location that holds nothing, recursion cut off by [fuel]). *)
Inductive error : Type :=
  | TypeError (msg : string)
  | CastTypeError (path ty : string) (attempted result : jsval)
  | Dangling
  | OutOfFuel.

Inductive result (A : Type) : Type :=
  | Ok (a : A)
  | Throw (e : error).
Arguments Ok {A} a.
Arguments Throw {A} e.

Definition M (A : Type) : Type := heap → result (A * heap).

Definition ret {A} (a : A) : M A := λ h, Ok (a, h).

Definition bind {A B} (m : M A) (k : A → M B) : M B :=
  λ h, match m h with
       | Ok (a, h') => k a h'
       | Throw e => Throw e
       end.

Definition throw {A} (e : error) : M A := λ _, Throw e.

Notation "'let*' x ':=' m 'in' k" := (bind m (λ x, k))
  (at level 10, x name, m at level 100, k at level 200).
Notation "'do' m 'then' k" := (bind m (λ _, k))
  (at level 10, m at level 100, k at level 200).

Definition get_schema (l : loc) : M schema :=
  λ h, match schemas h !! l with
       | Some s => Ok (s, h)
       | None => Throw Dangling
       end.

Definition put_schema (l : loc) (s : schema) : M unit :=
  λ h, Ok (tt, mkHeap (<[l := s]> (schemas h)) (arrays h) (tables h)
                 (protos h)).

Definition new_schema (s : schema) : M loc :=
  λ h, Ok (length (schemas h),
           mkHeap (schemas h ++ [s]) (arrays h) (tables h) (protos h)).

Definition get_array (a : loc) : M (list Test) :=
  λ h, match arrays h !! a with
       | Some ts => Ok (ts, h)
       | None => Throw Dangling
       end.

Definition put_array (a : loc) (ts : list Test) : M unit :=
  λ h, Ok (tt, mkHeap (schemas h) (<[a := ts]> (arrays h)) (tables h)
                 (protos h)).

Definition new_array (ts : list Test) : M loc :=
  λ h, Ok (length (arrays h),
           mkHeap (schemas h) (arrays h ++ [ts]) (tables h) (protos h)).

Definition get_table (e : loc) : M (gmap string bool) :=
  λ h, match tables h !! e with
       | Some t => Ok (t, h)
       | None => Throw Dangling
       end.

Definition put_table (e : loc) (t : gmap string bool) : M unit :=
  λ h, Ok (tt, mkHeap (schemas h) (arrays h) (<[e := t]> (tables h))
                 (protos h)).

(** A new table with the own properties [t]; [plain] tells whether it
    inherits from [Object.prototype]. *)
Definition new_table (plain : bool) (t : gmap string bool) : M loc :=
  λ h, Ok (length (tables h),
           mkHeap (schemas h) (arrays h) (tables h ++ [t])
             (if plain then {[length (tables h)]} ∪ protos h else protos h)).

(** Whether the table at [e] inherits from [Object.prototype]. *)
Definition plain_at (h : heap) (e : loc) : bool := bool_decide (e ∈ protos h).

(** Whether the assignment [table[k] = v] of a boolean records an own
    property.  It does not in one case: on a table that inherits from
    [Object.prototype] and has no own property ["__proto__"], the key
    ["__proto__"] reaches the inherited setter, which ignores a value that is
    not an object. *)
Definition records (plain : bool) (k : string) (t : gmap string bool) : bool :=
  negb (plain && bool_decide (k = "__proto__") && bool_decide (t !! k = None)).

(** [table[k] = v] on the table at [e]. *)
Definition set_property (e : loc) (k : string) (v : bool) : M unit :=
  λ h, match tables h !! e with
       | Some t =>
           if records (plain_at h e) k t
           then put_table e (<[k := v]> t) h
           else Ok (tt, h)
       | None => Throw Dangling
       end.

Definition modify_schema (l : loc) (f : schema → schema) : M unit :=
  let* s := get_schema l in put_schema l (f s).

(** ** clone and withMutation *)

(** What [cloneDeepWith] does to a value nested in the receiver [this]: a
    schema node other than the receiver is returned as it is (the customizer
    of [clone]); the receiver itself is not, and the deep copy maps it to the
    copy [next]; every other value is copied. *)
Definition clone_val (this next : loc) (v : jsval) : jsval :=
  match v with
  | VSchema l => if bool_decide (l = this) then VSchema next else VSchema l
  | _ => v
  end.

Definition clone_refset (this next : loc) (s : RefSet.t) : RefSet.t :=
  RefSet.mk (map (clone_val this next) (RefSet.list s))
            (map (λ kv, (kv.1, clone_val this next kv.2)) (RefSet.refs s)).

Definition clone_spec (this next : loc) (sp : SchemaSpec) : SchemaSpec :=
  mkSpec (nullable sp) (clone_val this next (default sp)) (hasDefault sp)
    (abortEarly sp) (strip sp) (strict sp) (recursive sp) (label sp)
    (clone_val this next (meta sp)).

(** The copy of a schema object whose copy will sit at [next], with its new
    [tests] array at [a] and its new [_exclusive] table at [e]. *)
Definition clone_schema (this next a e : loc) (s : schema) : schema :=
  mkSchema (type s) (deps s) e
    (clone_refset this next (_whitelist s))
    (clone_refset this next (_blacklist s))
    a (transforms s) (_mutate s) (_label s)
    (map (λ kv, (kv.1, clone_val this next kv.2)) (_meta s))
    (conditions s) (_typeError s) (_whitelistError s) (_blacklistError s)
    (clone_spec this next (spec s)).

Definition clone (this : loc) : M loc :=
  let* s := get_schema this in
  if _mutate s then ret this
  else
    let* ts := get_array (tests s) in
    let* tab := get_table (_exclusive s) in
    let* a := new_array ts in
    let* e := new_table true tab in
    λ h, new_schema (clone_schema this (length (schemas h)) a e s) h.

Definition withMutation {T} (fn : loc → M T) (this : loc) : M T :=
  let* s := get_schema this in
  let before := _mutate s in
  do put_schema this (set_mutate true s) then
  let* result := fn this in
  do modify_schema this (set_mutate before) then
  ret result.

(** ** test *)

(** Truthiness of [opts.name]: present and not the empty string. *)
Definition truthy_name (n : option string) : bool :=
  match n with
  | Some s => negb (bool_decide (s = ""))
  | None => false
  end.

(** The property key [opts.name] denotes once it is known to be truthy. *)
Definition name_key (n : option string) : string := from_option id "" n.

Definition locale_default : Message := LocaleMsg "default".

Definition with_message (m : Message) (o : TestConfig) : TestConfig :=
  mkTestConfig (name o) (Some m) (exclusive o) (test_fn o).

(** The filter of the [tests] queue in [test]: an existing test of the same
    name goes when the registration is exclusive or when it runs the same
    function. *)
Definition keep_test (opts : TestConfig) (isExclusive : bool) (validate fn : Test) : bool :=
  if bool_decide (name (OPTIONS fn) = name opts) then
    if isExclusive then false
    else if bool_decide (test_fn (OPTIONS fn) = test_fn (OPTIONS validate)) then false
    else true
  else true.

Definition test (opts0 : TestConfig) (this : loc) : M loc :=
  let opts := match message opts0 with
              | None => with_message locale_default opts0
              | Some _ => opts0
              end in
  match test_fn opts with
  | None => throw (TypeError "`test` is a required parameters")
  | Some _ =>
    let* next := clone this in
    let validate := createValidation opts in
    let* sn := get_schema next in
    let* tab := get_table (_exclusive sn) in
    let isExclusive :=
      exclusive opts ||
      (truthy_name (name opts) &&
       bool_decide (tab !! name_key (name opts) = Some true)) in
    if exclusive opts && negb (truthy_name (name opts)) then
      throw (TypeError "Exclusive tests must provide a unique `name` identifying the test")
    else
      do (if truthy_name (name opts)
          then set_property (_exclusive sn) (name_key (name opts))
                 (exclusive opts)
          else ret tt) then
      let* old := get_array (tests sn) in
      let* a := new_array
                  (List.filter (keep_test opts isExclusive validate) old
                   ++ [validate]) in
      do modify_schema next (set_tests a) then
      ret next
  end.

(** The call shapes of [test]: a bare function, [(name, test)] and
    [(name, message, test)]. *)
Definition test1 (f : TestFunction) : loc → M loc :=
  test (mkTestConfig None None false (Some f)).

Definition test2 (n : string) (f : TestFunction) : loc → M loc :=
  test (mkTestConfig (Some n) None false (Some f)).

Definition test3 (n : string) (m : Message) (f : TestFunction) : loc → M loc :=
  test (mkTestConfig (Some n) (Some m) false (Some f)).

(** ** Builders: constructor, typeError, default, nullable, when, oneOf *)

Definition typeError (msg : Message) (this : loc) : M loc :=
  let* next := clone this in
  do modify_schema next
       (set_typeError
          (Some (createValidation
                   (mkTestConfig (Some "typeError") (Some msg) false
                      (Some TypeErrorFn))))) then
  ret next.

Definition default_spec : SchemaSpec :=
  mkSpec false VUndef false true false false true None VUndef.

(** [new MixedSchema(options)]: the field initialisers, then the body of the
    constructor.  [ty] is [options.type]; [sp] overrides the entries of the
    initial [spec] that [options.spec] gives. *)
Definition MixedSchema_new (ty : option string) (sp : SchemaSpec → SchemaSpec)
  : M loc :=
  let* e := new_table false ∅ in
  let* a := new_array [] in
  let* this :=
    new_schema (mkSchema "" [] e RefSet.empty RefSet.empty a [] false None []
                  [] None None None default_spec) in
  do withMutation (λ this, typeError (LocaleMsg "notType") this) this then
  let ty' := match ty with
             | Some t => if bool_decide (t = "") then "mixed" else t
             | None => "mixed"
             end in
  do modify_schema this
       (λ s, mkSchema ty' (deps s) (_exclusive s) (_whitelist s)
               (_blacklist s) (tests s) (transforms s) (_mutate s) (_label s)
               (_meta s) (conditions s) (_typeError s) (_whitelistError s)
               (_blacklistError s) (sp default_spec)) then
  ret this.

Definition create : M loc := MixedSchema_new None id.

(** [default(def)], the setter. *)
Definition default_set (def : jsval) (this : loc) : M loc :=
  let* next := clone this in
  do modify_schema next (set_spec (set_hasDefault true)) then
  do modify_schema next (set_spec (set_default def)) then
  ret next.

(** [Object.assign(target, obj)] on the entries of two objects. *)
Definition assign (target obj : list (string * jsval))
  : list (string * jsval) :=
  foldl (λ m kv, RefSet.map_set kv.1 kv.2 m) target obj.

(** [meta(obj)], the setter; an [_meta] that is [undefined] has no entries. *)
Definition meta_set (obj : list (string * jsval)) (this : loc) : M loc :=
  let* next := clone this in
  do modify_schema next (λ s, set_meta (assign (_meta s) obj) s) then
  ret next.

Definition nullable_set (isNullable : bool) (this : loc) : M loc :=
  let* next := clone this in
  do modify_schema next (set_spec (set_nullable isNullable)) then
  ret next.

Definition strict_set (isStrict : bool) (this : loc) : M loc :=
  let* next := clone this in
  do modify_schema next (set_spec (set_strict isStrict)) then
  ret next.

Definition transform (fn : nat) (this : loc) : M loc :=
  let* next := clone this in
  do modify_schema next (λ s, set_transforms (transforms s ++ [fn]) s) then
  ret next.


Definition oneOf_step (s : schema) (val : jsval) : schema :=
  let s1 := set_lists (RefSet.add val (_whitelist s)) (_blacklist s) s in
  set_lists (_whitelist s1) (RefSet.delete val (_blacklist s1)) s1.

Definition oneOf (enums : list jsval) (msg : Message) (this : loc) : M loc :=
  let* next := clone this in
  do modify_schema next (λ s, foldl oneOf_step s enums) then
  do modify_schema next
       (set_whitelistError
          (Some (createValidation
                   (mkTestConfig (Some "oneOf") (Some msg) false
                      (Some OneOfFn))))) then
  ret next.

Definition notOneOf_step (s : schema) (val : jsval) : schema :=
  let s1 := set_lists (_whitelist s) (RefSet.add val (_blacklist s)) s in
  set_lists (RefSet.delete val (_whitelist s1)) (_blacklist s1) s1.

Definition notOneOf (enums : list jsval) (msg : Message) (this : loc) : M loc :=
  let* next := clone this in
  do modify_schema next (λ s, foldl notOneOf_step s enums) then
  do modify_schema next
       (set_blacklistError
          (Some (createValidation
                   (mkTestConfig (Some "notOneOf") (Some msg) false
                      (Some NotOneOfFn))))) then
  ret next.

(** ** concat *)

(** Modelled from the spec: [merge] is util/prependDeep, which is not part of
    the sources at hand.  The spec: "deep-merge other's spec/transforms/meta
    over a clone of the receiver (the merge gives other's explicitly-set
    fields priority, receiver fields are the base)".  [target] is the copy of
    the other schema, [source] the receiver: a field the target has set wins,
    an unset one is taken from the receiver, arrays are joined with the
    receiver's entries first, objects are merged entry by entry.  [tests],
    [_exclusive], [_whitelist] and [_blacklist] are left as they are:
    [concat] overwrites each of them right after the merge. *)
Definition merge_val (target source : jsval) : jsval :=
  if bool_decide (target = VUndef) then source else target.

Definition merge_opt {A} (target source : option A) : option A :=
  match target with Some _ => target | None => source end.

Definition merge_obj (target source : list (string * jsval))
  : list (string * jsval) :=
  target ++
  List.filter (λ kv, negb (bool_decide (kv.1 ∈ map fst target))) source.

Definition merge_spec (target source : SchemaSpec) : SchemaSpec :=
  mkSpec (nullable target)
    (merge_val (default target) (default source))
    (hasDefault target) (abortEarly target) (strip target) (strict target)
    (recursive target)
    (merge_opt (label target) (label source))
    (merge_val (meta target) (meta source)).

Definition merge (target source : schema) : schema :=
  mkSchema (type target)
    (deps source ++ deps target)
    (_exclusive target) (_whitelist target) (_blacklist target) (tests target)
    (transforms source ++ transforms target)
    (_mutate target || _mutate source)
    (merge_opt (_label target) (_label source))
    (merge_obj (_meta target) (_meta source))
    (conditions source ++ conditions target)
    (merge_opt (_typeError target) (_typeError source))
    (merge_opt (_whitelistError target) (_whitelistError source))
    (merge_opt (_blacklistError target) (_blacklistError source))
    (merge_spec (spec target) (spec source)).

(** [tests.forEach(fn => next.test(fn.OPTIONS))]. *)
Fixpoint register_all (ts : list Test) (next : loc) : M unit :=
  match ts with
  | [] => ret tt
  | fn :: ts' => do test (OPTIONS fn) next then register_all ts' next
  end.

Definition concat (schema : option loc) (this : loc) : M loc :=
  match schema with
  | None => ret this
  | Some other =>
    if bool_decide (other = this) then ret this
    else
      let* so := get_schema other in
      let* st := get_schema this in
      if negb (bool_decide (type so = type st)) &&
         negb (bool_decide (type st = "mixed"))
      then throw (TypeError
                    ("You cannot `concat()` schema's of different types: " ++
                     type st ++ " and " ++ type so))
      else
        let* next := clone other in
        let* sn := get_schema next in
        do put_schema next (merge sn st) then
        let* so := get_schema other in
        do (if hasDefault (spec so)
            then modify_schema next (set_spec (set_default (default (spec so))))
            else ret tt) then
        let* st := get_schema this in
        do modify_schema next (set_tests (tests st)) then
        do modify_schema next (set_exclusive (_exclusive st)) then
        let* st := get_schema this in
        let* so := get_schema other in
        do modify_schema next
             (λ s, set_lists
                     (RefSet.merge (_whitelist so) (_blacklist so) (_whitelist st))
                     (_blacklist s) s) then
        let* st := get_schema this in
        let* so := get_schema other in
        do modify_schema next
             (λ s, set_lists (_whitelist s)
                     (RefSet.merge (_blacklist so) (_whitelist so) (_blacklist st))
                     s) then
        let* so := get_schema other in
        let* ots := get_array (tests so) in
        do withMutation (register_all ots) next then
        ret next
  end.

(** ** cloneDeepWith without a customizer *)

(** [default()] copies its value with lodash's [cloneDeepWith] and no
    customizer, which on a schema node copies the whole graph of objects
    reachable from it: every node it meets gets one copy, remembered so that a
    node met again, or a cycle, leads to the copy already made. *)
Definition memo : Type := list (loc * loc).

Definition memo_find (m : memo) (l : loc) : option loc :=
  snd <$> List.find (λ p, bool_decide (p.1 = l)) m.

Section DeepCopy.

Variable copy_node : loc → memo → M (loc * memo).

Definition copy_value (v : jsval) (m : memo) : M (jsval * memo) :=
  match v with
  | VSchema l =>
      match memo_find m l with
      | Some l' => ret (VSchema l', m)
      | None => let* r := copy_node l m in ret (VSchema r.1, r.2)
      end
  | _ => ret (v, m)
  end.

Fixpoint copy_values (vs : list jsval) (m : memo) : M (list jsval * memo) :=
  match vs with
  | [] => ret ([], m)
  | v :: vs' =>
      let* r := copy_value v m in
      let* rs := copy_values vs' r.2 in
      ret (r.1 :: rs.1, rs.2)
  end.

Fixpoint copy_entries (kvs : list (string * jsval)) (m : memo)
  : M (list (string * jsval) * memo) :=
  match kvs with
  | [] => ret ([], m)
  | kv :: kvs' =>
      let* r := copy_value kv.2 m in
      let* rs := copy_entries kvs' r.2 in
      ret ((kv.1, r.1) :: rs.1, rs.2)
  end.

Definition copy_refset (s : RefSet.t) (m : memo) : M (RefSet.t * memo) :=
  let* l := copy_values (RefSet.list s) m in
  let* r := copy_entries (RefSet.refs s) l.2 in
  ret (RefSet.mk l.1 r.1, r.2).

End DeepCopy.

(** The copy of the node at [l].  The new object is made, and remembered,
    before its properties are copied, in the order the class creates them;
    test, transform and condition functions are not copied.  [fuel] bounds
    the depth of nesting. *)
Fixpoint copy_node (fuel : nat) (l : loc) (m : memo) : M (loc * memo) :=
  match fuel with
  | O => throw OutOfFuel
  | S fuel' =>
      let* s := get_schema l in
      let* ts := get_array (tests s) in
      let* tab := get_table (_exclusive s) in
      let* n := new_schema s in
      let m := (l, n) :: m in
      let* e := new_table true tab in
      let* w := copy_refset (copy_node fuel') (_whitelist s) m in
      let* b := copy_refset (copy_node fuel') (_blacklist s) w.2 in
      let* a := new_array ts in
      let* sm := copy_value (copy_node fuel') (meta (spec s)) b.2 in
      let* sd := copy_value (copy_node fuel') (default (spec s)) sm.2 in
      let* me := copy_entries (copy_node fuel') (_meta s) sd.2 in
      do put_schema n
           (mkSchema (type s) (deps s) e w.1 b.1 a (transforms s) (_mutate s)
              (_label s) me.1 (conditions s) (_typeError s)
              (_whitelistError s) (_blacklistError s)
              (mkSpec (nullable (spec s)) sd.1 (hasDefault (spec s))
                 (abortEarly (spec s)) (strip (spec s)) (strict (spec s))
                 (recursive (spec s)) (label (spec s)) sm.1)) then
      ret (n, me.2)
  end.

(** [cloneDeepWith(value)] for a schema node: no node is visited twice, so
    in a store whose references are all live one unit of fuel for each node
    of the store, and one more, is enough. *)
Definition cloneDeep (l : loc) : M loc :=
  λ h, (let* r := copy_node (S (length (schemas h))) l [] in ret r.1) h.


(** The errors of the model itself, which no JavaScript run has: an object
    that is not in the store, and recursion out of fuel. *)
Definition benign (e : error) : Prop := e = Dangling ∨ e = OutOfFuel.

(** A computation whose every error is of that kind. *)
Definition benign_run {A} (m : M A) : Prop :=
  ∀ h e, m h = Throw e → benign e.

(** A computation that leaves in place the arrays the store holds. *)
Definition keeps_arrays {A} (m : M A) : Prop :=
  ∀ h a h', m h = Ok (a, h') → arrays h `prefix_of` arrays h'.

(** ** Collaborators *)

(** Options of [cast], [validate] and [resolve]; absent entries are [None]. *)
Record Options : Type := mkOptions {
  assert : option bool;
  path : option string;
  parent : list (string * jsval);
  context : list (string * jsval);
  opt_strict : option bool;
  opt_abortEarly : option bool;
  originalValue : option jsval
}.

Definition no_options : Options := mkOptions None None [] [] None None None.

(** What mixed.ts takes from elsewhere: the [_typeCheck] method, which the
    concrete schema kinds override; the transform and default-factory
    functions a schema holds; [Condition.resolve]; the user's test functions
    (synchronous, [true] for a pass); and the resolution of a [Reference]
    against the options of the call. *)
Record Collaborators : Type := mkCollaborators {
  _typeCheck : schema → jsval → bool;
  call_transform : nat → jsval → jsval → jsval;
  call_default : nat → jsval;
  cond_resolve : Condition → loc → jsval → Options → M loc;
  user_test : nat → jsval → bool;
  getValue : string → jsval → Options → jsval
}.

(** [MixedSchema.prototype._typeCheck]: the base class accepts everything. *)
Definition MixedSchema_typeCheck (_ : schema) (_ : jsval) : bool := true.

(** The base class on its own: no transform or condition does anything. *)
Definition base : Collaborators :=
  mkCollaborators MixedSchema_typeCheck (λ _ v _, v) (λ _, VUndef)
    (λ _ s _ _, ret s) (λ _ _, true) (λ _ _ _, VUndef).



Section Engine.

Variable C : Collaborators.

(** *** isType *)

Definition isType (s : schema) (v : jsval) : bool :=
  if nullable (spec s) && bool_decide (v = VNull) then true
  else _typeCheck C s v.

(** *** resolve *)

Fixpoint reduce_conditions (conds : list Condition) (value : jsval)
    (options : Options) (schema : loc) : M loc :=
  match conds with
  | [] => ret schema
  | condition :: rest =>
      let* schema' := cond_resolve C condition schema value options in
      reduce_conditions rest value options schema'
  end.

(** A branch may bring in further conditions, so [resolve] calls itself on
    its result; [fuel] bounds the depth of these calls. *)
Fixpoint resolve (fuel : nat) (value : jsval) (options : Options)
    (this : loc) : M loc :=
  let* s := get_schema this in
  match conditions s with
  | [] => ret this
  | _ :: _ =>
      match fuel with
      | O => throw OutOfFuel
      | S fuel' =>
          let conds := conditions s in
          let* schema := clone this in
          do modify_schema schema (set_conditions []) then
          let* schema := reduce_conditions conds value options schema in
          resolve fuel' value options schema
      end
  end.

(** *** cast *)

(** [default()], the getter.  A default that is [null] or [undefined] is
    returned as it is, a function is called, anything else is copied with
    [cloneDeepWith]: a schema node becomes a new node, the other values of
    the model are their own copies. *)
Definition default_get (s : schema) : M jsval :=
  match default (spec s) with
  | VUndef => ret VUndef
  | VNull => ret VNull
  | VFun f => ret (call_default C f)
  | VSchema l => let* l' := cloneDeep l in ret (VSchema l')
  | v => ret v
  end.

Definition _cast (s : schema) (rawValue : jsval) : M jsval :=
  let value :=
    if bool_decide (rawValue = VUndef) then rawValue
    else foldl (λ value fn, call_transform C fn value rawValue) rawValue
           (transforms s) in
  if bool_decide (value = VUndef) &&
     negb (bool_decide (default (spec s) = UNSET))
  then default_get s
  else ret value.

(** [options.path || 'field'] *)
Definition path_or_field (options : Options) : string :=
  match path options with
  | Some p => if bool_decide (p = "") then "field" else p
  | None => "field"
  end.

Definition cast (fuel : nat) (value : jsval) (options : Options)
    (this : loc) : M jsval :=
  let* resolvedSchema := resolve fuel value options this in
  let* s := get_schema resolvedSchema in
  let* result := _cast s value in
  if negb (bool_decide (value = VUndef)) &&
     negb (bool_decide (assert options = Some false)) &&
     negb (bool_decide (isType s result = true))
  then throw (CastTypeError (path_or_field options) (type s) value result)
  else ret result.

(** *** _validate, synchronously *)

(** The bodies of the three synthesized tests and of a user test, run on
    the cast value against the schema under validation: [true] is a pass,
    [false] an error. *)
Definition run_test (s : schema) (options : Options) (value : jsval)
    (t : Test) : bool :=
  let resolve_item := λ item,
    match item with
    | VRef key => getValue C key value options
    | _ => item
    end in
  match test_fn (OPTIONS t) with
  | Some TypeErrorFn =>
      if negb (bool_decide (value = VUndef)) && negb (isType s value)
      then false else true
  | Some OneOfFn =>
      if bool_decide (value = VUndef) then true
      else RefSet.has value resolve_item (_whitelist s)
  | Some NotOneOfFn =>
      negb (RefSet.has value resolve_item (_blacklist s))
  | Some (UserFn f) => user_test C f value
  | None => true
  end.

(** Modelled from the spec: [runTests] is util/runTests, which is not part
    of the sources at hand.  The spec, for the synchronous mode: "the
    pipeline drives tests strictly in order, short-circuiting on the first
    failure when abortEarly is set"; "abortEarly = true stops at the first
    failing test and yields a single error; false runs every test and
    aggregates all failures into one composite error".  The result is the
    list of the tests that were run and the list of those that failed, both
    in order; the callback gets an error when the second is not empty. *)
Fixpoint runTests (run : Test → bool) (endEarly : bool) (ts : list Test)
  : list Test * list Test :=
  match ts with
  | [] => ([], [])
  | t :: ts' =>
      if run t then
        let '(ran, failed) := runTests run endEarly ts' in (t :: ran, failed)
      else if endEarly then ([t], [t])
      else
        let '(ran, failed) := runTests run endEarly ts' in
        (t :: ran, t :: failed)
  end.

(** What the callback of [_validate] is given ([err] holds the failed tests
    of the error, none when there is no error), and the tests that ran, in
    the order they ran. *)
Record validation : Type := mkValidation {
  err : list Test;
  val : jsval;
  ran : list Test
}.

Definition initialTests (s : schema) : list Test :=
  (match _typeError s with Some t => [t] | None => [] end) ++
  (match _whitelistError s with Some t => [t] | None => [] end) ++
  (match _blacklistError s with Some t => [t] | None => [] end).

Definition _validate (_value : jsval) (options : Options) (this : loc)
  : M validation :=
  let* s := get_schema this in
  let strict' := from_option id (strict (spec s)) (opt_strict options) in
  let abortEarly' :=
    from_option id (abortEarly (spec s)) (opt_abortEarly options) in
  let* value := if strict' then ret _value else _cast s _value in
  let '(ran1, failed1) :=
    runTests (run_test s options value) abortEarly' (initialTests s) in
  match failed1 with
  | _ :: _ => ret (mkValidation failed1 value ran1)
  | [] =>
      let* user := get_array (tests s) in
      let '(ran2, failed2) :=
        runTests (run_test s options value) abortEarly' user in
      ret (mkValidation failed2 value (ran1 ++ ran2))
  end.

Definition validateSync (fuel : nat) (value : jsval) (options : Options)
    (this : loc) : M validation :=
  let* schema := resolve fuel value options this in
  _validate value options schema.

End Engine.

(** ** Reading the store *)

(** The schema object at [l] with its [tests] array and [_exclusive] table. *)
Definition schema_at (h : heap) (l : loc) (s : schema) (q : list Test)
    (tab : gmap string bool) : Prop :=
  schemas h !! l = Some s ∧
  arrays h !! tests s = Some q ∧
  tables h !! _exclusive s = Some tab.

(** The [tests] queue of the schema at [l]. *)
Definition queue (h : heap) (l : loc) : option (list Test) :=
  match schemas h !! l with
  | Some s => arrays h !! tests s
  | None => None
  end.

(** The [_exclusive] table of the schema at [l]. *)
Definition exclusive_table (h : heap) (l : loc) : option (gmap string bool) :=
  match schemas h !! l with
  | Some s => tables h !! _exclusive s
  | None => None
  end.

(** The tests of a queue registered under the name [n]. *)
Definition named (n : option string) (q : list Test) : list Test :=
  List.filter (λ t, bool_decide (name (OPTIONS t) = n)) q.

(** The tests of a queue registered under [n] that run the function [f]. *)
Definition copies (n : option string) (f : option TestFunction)
    (q : list Test) : list Test :=
  List.filter (λ t, bool_decide (name (OPTIONS t) = n) &&
                    bool_decide (test_fn (OPTIONS t) = f)) q.

(** [opts] after [if (opts.message === undefined) opts.message = locale.default]. *)
Definition normalize (opts : TestConfig) : TestConfig :=
  match message opts with
  | None => with_message locale_default opts
  | Some _ => opts
  end.

(** [isExclusive] of [test], from the options and the table of the clone. *)
Definition isExclusive_of (opts : TestConfig) (tab : gmap string bool) : bool :=
  exclusive opts ||
  (truthy_name (name opts) &&
   bool_decide (tab !! name_key (name opts) = Some true)).

(** The queue and the table [test] leaves in its result. *)
Definition queue_after (opts : TestConfig) (tab : gmap string bool)
    (q : list Test) : list Test :=
  List.filter (keep_test (normalize opts) (isExclusive_of opts tab)
                 (createValidation (normalize opts))) q
  ++ [createValidation (normalize opts)].

(** [plain] tells whether the table inherits from [Object.prototype]. *)
Definition table_after (plain : bool) (opts : TestConfig)
    (tab : gmap string bool) : gmap string bool :=
  if truthy_name (name opts) && records plain (name_key (name opts)) tab
  then <[name_key (name opts) := exclusive opts]> tab
  else tab.

(** How [clone] copies a value nested in the receiver [this], whose copy is
    [next]: the receiver itself becomes the copy, every other value, also
    every other schema node, stays what it is. *)
Definition copy_of (this next : loc) (v v' : jsval) : Prop :=
  if decide (v = VSchema this) then v' = VSchema next else v' = v.

(** The same for the entries of an object or of a map: the keys stay. *)
Definition entry_copy_of (this next : loc) (kv kv' : string * jsval) : Prop :=
  kv'.1 = kv.1 ∧ copy_of this next kv.2 kv'.2.

(** Whether the table that a builder called on [s] writes to inherits from
    [Object.prototype]: outside a window it is the table of a copy, inside it
    is the receiver's own. *)
Definition writes_plain (h : heap) (s : schema) : bool :=
  negb (_mutate s) || plain_at h (_exclusive s).

(** One store extends another: every object of the first is in the second,
    unchanged. *)
Definition extends (h h' : heap) : Prop :=
  (∀ l s, schemas h !! l = Some s → schemas h' !! l = Some s) ∧
  (∀ a q, arrays h !! a = Some q → arrays h' !! a = Some q) ∧
  (∀ e t, tables h !! e = Some t → tables h' !! e = Some t).

(** ** Sample schemas *)

Definition notType_test : Test :=
  createValidation
    (mkTestConfig (Some "typeError") (Some (LocaleMsg "notType")) false
       (Some TypeErrorFn)).

(** What [create()] builds in an empty store: the schema [mixed()] at
    location [0]. *)
Definition mixed_schema : schema :=
  mkSchema "mixed" [] 0 RefSet.empty RefSet.empty 0 [] false None [] []
    (Some notType_test) None None default_spec.

Definition mixed_heap : heap := mkHeap [mixed_schema] [[]] [∅] ∅.

(** A user test configuration [{name, exclusive, test}]. *)
Definition user_config (n : string) (ex : bool) (f : nat) : TestConfig :=
  mkTestConfig (Some n) None ex (Some (UserFn f)).


(** A schema that holds itself in its [_meta], as after
    [s.withMutation(s => s.meta({me: s}))]. *)
Definition self_nested_schema : schema :=
  set_meta [("me", VSchema 0)] mixed_schema.

Definition self_nested_heap : heap :=
  mkHeap [self_nested_schema] [[]] [∅] ∅.





(** A concrete schema kind that overrides [_typeCheck]: only numbers pass. *)
Definition number_typeCheck (_ : schema) (v : jsval) : bool :=
  match v with VNum _ => true | _ => false end.

Definition number_kind : Collaborators :=
  mkCollaborators number_typeCheck (λ _ v _, v) (λ _, VUndef)
    (λ _ s _ _, ret s) (λ _ _, true) (λ _ _ _, VUndef).

(** A schema of that kind whose default is the string ["abc"]. *)
Definition number_with_string_default : M loc :=
  let* s := MixedSchema_new (Some "number") id in
  default_set (VStr "abc") s.

(** The store that construction leaves, and the schema in it, at [1]. *)
Definition number_heap : heap :=
  Eval vm_compute in
    match number_with_string_default empty_heap with
    | Ok (_, h) => h
    | Throw _ => empty_heap
    end.

Definition number_schema : schema :=
  Eval vm_compute in
    match schemas number_heap !! 1 with
    | Some s => s
    | None => mixed_schema
    end.

(** [mixed().oneOf([1, 2, 3]).notOneOf([2])], the store it leaves and the
    schema in it, at [2]. *)
Definition one_two_three_not_two : M loc :=
  let* s := create in
  let* s := oneOf [VNum 1; VNum 2; VNum 3] (LocaleMsg "oneOf") s in
  notOneOf [VNum 2] (LocaleMsg "notOneOf") s.

Definition enum_heap : heap :=
  Eval vm_compute in
    match one_two_three_not_two empty_heap with
    | Ok (_, h) => h
    | Throw _ => empty_heap
    end.

Definition enum_schema : schema :=
  Eval vm_compute in
    match schemas enum_heap !! 2 with
    | Some s => s
    | None => mixed_schema
    end.

(** Five schemas in one store: [mixed()] at [0], [mixed().default(1)] at
    [1], a second [mixed()] at [2], its [.default(2)] at [3] and its
    [.default(undefined)] at [4]. *)
Definition default_pair : M loc :=
  let* a0 := create in
  let* a := default_set (VNum 1) a0 in
  let* b := create in
  do default_set (VNum 2) b then
  default_set VUndef b.

Definition default_pair_heap : heap :=
  Eval vm_compute in
    match default_pair empty_heap with
    | Ok (_, h) => h
    | Throw _ => empty_heap
    end.

(** [X = mixed().default(7)] at [1], [mixed().default(1)] at [3],
    [Y = mixed().default(1).concat(mixed())] at [5], and [X.concat(Y)]. *)
Definition inherited_default : M (loc * loc * loc) :=
  let* x0 := create in
  let* x := default_set (VNum 7) x0 in
  let* y0 := create in
  let* y1 := default_set (VNum 1) y0 in
  let* m := create in
  let* y := concat (Some m) y1 in
  let* z := concat (Some y) x in
  ret (x, y, z).

Definition inherited_default_heap : heap :=
  Eval vm_compute in
    match inherited_default empty_heap with
    | Ok (_, h) => h
    | Throw _ => empty_heap
    end.

(** On the store of [default_pair], with [A = mixed().default(1)] at [1]
    and [B = mixed().default(undefined)] at [4]:
    [B.withMutation(b => A.concat(b))]. *)
Definition concat_in_window : M loc :=
  withMutation (λ b, concat (Some b) 1) 4.

Definition concat_in_window_heap : heap :=
  Eval vm_compute in
    match concat_in_window default_pair_heap with
    | Ok (_, h) => h
    | Throw _ => default_pair_heap
    end.


(** [mixed()] at [0], and at [2] a second schema with the exclusive test
    [{name: "x", exclusive: true, test: f1}]. *)
Definition exclusive_pair : M loc :=
  let* a := create in
  let* b := create in
  test (user_config "x" true 1) b.

Definition exclusive_pair_heap : heap :=
  Eval vm_compute in
    match exclusive_pair empty_heap with
    | Ok (_, h) => h
    | Throw _ => empty_heap
    end.

(** The store after [concat] of the second onto the first. *)
Definition exclusive_concat_heap : heap :=
  Eval vm_compute in
    match concat (Some 2) 0 exclusive_pair_heap with
    | Ok (_, h) => h
    | Throw _ => empty_heap
    end.

(** A schema at [1] that holds the schema at [0] in its [_meta], as
    [mixed().meta({child: N})] does. *)
Definition parent_schema : schema :=
  set_meta [("child", VSchema 0)]
    (set_exclusive 1 (set_tests 1 mixed_schema)).

Definition nested_heap : heap :=
  mkHeap [mixed_schema; parent_schema] [[]; []] [∅; ∅] {[1]}.

(** The schema object a sample store holds at [l]. *)
Definition schema_in (h : heap) (l : loc) : schema :=
  match schemas h !! l with
  | Some s => s
  | None => mixed_schema
  end.

(** Membership of a value in a [RefSet]: a reference by its key, any other
    value among the literals. *)
Definition member (v : jsval) (s : RefSet.t) : bool :=
  match v with
  | VRef key => bool_decide (key ∈ map fst (RefSet.refs s))
  | _ => bool_decide (v ∈ RefSet.list s)
  end.

(** The queue and table after registering the tests [ts] one by one, on a
    table that inherits from [Object.prototype] or not, as [plain] tells. *)
Definition after_all (plain : bool) (ts : list Test) (q : list Test)
    (tab : gmap string bool) : list Test * gmap string bool :=
  foldl (λ st t, (queue_after (OPTIONS t) st.2 st.1,
                  table_after plain (OPTIONS t) st.2))
        (q, tab) ts.

(** A registered test has a function, and a name if it is exclusive. *)
Definition registrable (t : Test) : Prop :=
  is_Some (test_fn (OPTIONS t)) ∧
  (exclusive (OPTIONS t) = true → truthy_name (name (OPTIONS t)) = true).

(** *** Schemas up to the identity of objects *)











(** ** Further builders and readers *)

(** [required(message)]: an exclusive test named ["required"].  [f] is the
    identity of the function the call creates (its body is
    [this.schema._isPresent(value)]); an absent [message] is
    [locale.required]. *)
Definition required (msg : option Message) (f : nat) (this : loc) : M loc :=
  test (mkTestConfig (Some "required")
          (Some (from_option id (LocaleMsg "required") msg)) true
          (Some (UserFn f))) this.

(** [defined(message)]: an exclusive test named ["defined"]; [f] is the
    identity of the function the call creates (its body is
    [value !== undefined]). *)
Definition defined (msg : option Message) (f : nat) (this : loc) : M loc :=
  test (mkTestConfig (Some "defined")
          (Some (from_option id (LocaleMsg "defined") msg)) true
          (Some (UserFn f))) this.

(** [notRequired()], also installed as [optional]: [filter] builds the new
    array. *)
Definition notRequired (this : loc) : M loc :=
  let* next := clone this in
  let* sn := get_schema next in
  let* old := get_array (tests sn) in
  let* a := new_array
              (List.filter
                 (λ t, negb (bool_decide (name (OPTIONS t) = Some "required")))
                 old) in
  do modify_schema next (set_tests a) then
  ret next.


(** A [RefSet] as the class keeps it: no literal twice, no key twice, and
    every reference filed under its own key. *)
Definition refset_wf (s : RefSet.t) : Prop :=
  NoDup (RefSet.list s) ∧
  NoDup (map fst (RefSet.refs s)) ∧
  Forall (λ v, isRef v = false) (RefSet.list s) ∧
  Forall (λ kv, kv.2 = VRef kv.1) (RefSet.refs s).

(** The names under which the tests of a queue are registered. *)
Definition names_of (q : list Test) : list (option string) :=
  map (λ t, name (OPTIONS t)) q.

(** ** Further samples *)

(** A set with the literal [1] and the reference [k]. *)
Definition sample_set : RefSet.t :=
  RefSet.add (VRef "k") (RefSet.add (VNum 1) RefSet.empty).

(** [mixed()] at [0] and [mixed().required()] at [1]. *)
Definition required_heap : heap :=
  Eval vm_compute in
    match (let* s := create in required None 5 s) empty_heap with
    | Ok (_, h) => h
    | Throw _ => empty_heap
    end.

(** A schema of type ["number"] at [0], one of type ["string"] at [1] and
    [mixed()] at [2]. *)
Definition typed_heap : heap :=
  Eval vm_compute in
    match (do MixedSchema_new (Some "number") id then
           do MixedSchema_new (Some "string") id then
           create) empty_heap with
    | Ok (_, h) => h
    | Throw _ => empty_heap
    end.

(** [mixed().oneOf([1, 2])] at [1] and [mixed().notOneOf([2])] at [3]. *)
Definition lists_heap : heap :=
  Eval vm_compute in
    match (let* a := create in
           do oneOf [VNum 1; VNum 2] (LocaleMsg "oneOf") a then
           let* b := create in
           notOneOf [VNum 2] (LocaleMsg "notOneOf") b) empty_heap with
    | Ok (_, h) => h
    | Throw _ => empty_heap
    end.

(** The test that [exclusive_pair] registers. *)
Definition x_test : Test :=
  createValidation (normalize (user_config "x" true 1)).

(* ================================================================== *)
(** * Properties *)

(** ** Lemmas on the store and on clone *)

Lemma extends_refl h : extends h h.
Proof. by repeat split. Qed.

Lemma extends_trans h1 h2 h3 : extends h1 h2 → extends h2 h3 → extends h1 h3.
Proof.
  intros (A1 & B1 & C1) (A2 & B2 & C2).
  repeat split; eauto.
Qed.

Lemma normalize_name opts : name (normalize opts) = name opts.
Proof. unfold normalize. by destruct (message opts). Qed.

Lemma normalize_exclusive opts : exclusive (normalize opts) = exclusive opts.
Proof. unfold normalize. by destruct (message opts). Qed.

Lemma normalize_test_fn opts : test_fn (normalize opts) = test_fn opts.
Proof. unfold normalize. by destruct (message opts). Qed.

Lemma clone_in_window h l s :
  schemas h !! l = Some s → _mutate s = true → clone l h = Ok (l, h).
Proof.
  intros Hs Hm. unfold clone, bind, get_schema. by rewrite Hs, Hm.
Qed.

Lemma clone_copy h l s q tab :
  schema_at h l s q tab → _mutate s = false →
  clone l h =
    Ok (length (schemas h),
        mkHeap (schemas h ++
                  [clone_schema l (length (schemas h)) (length (arrays h))
                     (length (tables h)) s])
               (arrays h ++ [q]) (tables h ++ [tab])
               ({[length (tables h)]} ∪ protos h)).
Proof.
  intros (Hs & Hq & Ht) Hm.
  unfold clone, bind, get_schema, get_array, get_table, new_array, new_table,
    new_schema.
  rewrite Hs, Hm. simpl. by rewrite Hq, Ht.
Qed.

Lemma insert_snoc {A} (l : list A) (x y : A) :
  <[length l := y]> (l ++ [x]) = l ++ [y].
Proof.
  induction l as [|a l IH]; simpl; [done|]. by rewrite IH.
Qed.

Lemma lookup_snoc {A} (l : list A) (x : A) : (l ++ [x]) !! length l = Some x.
Proof.
  induction l as [|a l IH]; simpl; [done|]. exact IH.
Qed.

(** Run a computation on an explicit store: unfold the store primitives and
    settle the lookups from the hypotheses. *)
Ltac mrun :=
  repeat first
    [ progress unfold bind, ret, throw, get_schema, put_schema, new_schema,
        get_array, put_array, new_array, get_table, put_table, new_table,
        modify_schema
    | progress simpl
    | rewrite lookup_snoc
    | rewrite insert_snoc
    | match goal with
      | H : ?l !! ?i = Some _ |- context [?l !! ?i] => rewrite H
      end ].

Lemma set_property_run h e k v t :
  tables h !! e = Some t →
  set_property e k v h =
    Ok (tt, mkHeap (schemas h) (arrays h)
              (<[e := if records (plain_at h e) k t then <[k := v]> t else t]>
                 (tables h))
              (protos h)).
Proof.
  intros Ht. unfold set_property. rewrite Ht.
  destruct (records (plain_at h e) k t); [done|].
  rewrite list_insert_id by done. by destruct h.
Qed.

(** [test] inside a withMutation window: the receiver itself gets the new
    queue, in a new array, and its own table is written. *)
Lemma test_in_window h l s q tab opts f :
  schema_at h l s q tab → _mutate s = true →
  test_fn opts = Some f →
  (exclusive opts = true → truthy_name (name opts) = true) →
  test opts l h =
    Ok (l, mkHeap (<[l := set_tests (length (arrays h)) s]> (schemas h))
             (arrays h ++ [queue_after opts tab q])
             (<[_exclusive s :=
                  table_after (plain_at h (_exclusive s)) opts tab]>
                (tables h))
             (protos h)).
Proof.
  intros (Hs & Hq & Ht) Hm Hf Hex.
  unfold test. fold (normalize opts). rewrite normalize_test_fn, Hf.
  unfold bind at 1. rewrite (clone_in_window h l s Hs Hm).
  unfold bind at 1. unfold get_schema at 1. rewrite Hs.
  unfold bind at 1. unfold get_table at 1. rewrite Ht.
  rewrite normalize_exclusive, normalize_name.
  destruct (exclusive opts && negb (truthy_name (name opts))) eqn:E.
  { apply andb_true_iff in E as [E1 E2]. rewrite (Hex E1) in E2. done. }
  unfold table_after, queue_after, isExclusive_of.
  destruct (truthy_name (name opts)).
  - unfold bind at 1. rewrite (set_property_run h _ _ _ tab Ht).
    simpl. mrun. done.
  - simpl. rewrite (list_insert_id (tables h)) by done. mrun. done.
Qed.

(** [test] outside a window: the receiver is copied and the copy gets the
    new queue and table; nothing the store held before is written. *)
Lemma test_on_copy h l s q tab opts f :
  schema_at h l s q tab → _mutate s = false →
  test_fn opts = Some f →
  (exclusive opts = true → truthy_name (name opts) = true) →
  test opts l h =
    Ok (length (schemas h),
        mkHeap (schemas h ++
                  [set_tests (S (length (arrays h)))
                     (clone_schema l (length (schemas h)) (length (arrays h))
                        (length (tables h)) s)])
               (arrays h ++ [q; queue_after opts tab q])
               (tables h ++ [table_after true opts tab])
               ({[length (tables h)]} ∪ protos h)).
Proof.
  intros Hat Hm Hf Hex.
  unfold test. fold (normalize opts). rewrite normalize_test_fn, Hf.
  unfold bind at 1. rewrite (clone_copy h l s q tab Hat Hm).
  unfold bind at 1. unfold get_schema at 1. simpl. rewrite lookup_snoc.
  unfold bind at 1. unfold get_table at 1. simpl. rewrite lookup_snoc.
  rewrite normalize_exclusive, normalize_name.
  destruct (exclusive opts && negb (truthy_name (name opts))) eqn:E.
  { apply andb_true_iff in E as [E1 E2]. rewrite (Hex E1) in E2. done. }
  unfold table_after, queue_after, isExclusive_of.
  destruct (truthy_name (name opts)).
  - unfold bind at 1.
    match goal with
    | |- context [set_property ?e ?k ?v ?h0] =>
        rewrite (set_property_run h0 e k v tab) by (simpl; apply lookup_snoc)
    end.
    assert (plain_at
              {| schemas := schemas h ++
                   [clone_schema l (length (schemas h)) (length (arrays h))
                      (length (tables h)) s];
                 arrays := arrays h ++ [q];
                 tables := tables h ++ [tab];
                 protos := {[length (tables h)]} ∪ protos h |}
              (length (tables h)) = true) as ->.
    { unfold plain_at. simpl. apply bool_decide_eq_true. set_solver. }
    simpl. mrun.
    rewrite length_app, <- app_assoc; simpl; rewrite Nat.add_1_r; done.
  - simpl. mrun.
    rewrite length_app, <- app_assoc; simpl; rewrite Nat.add_1_r; done.
Qed.

(** [test] on any live schema: it returns, and its result carries the
    filtered queue with the new test at the end, and the updated table. *)
Lemma test_spec h l s q tab opts f :
  schema_at h l s q tab →
  test_fn opts = Some f →
  (exclusive opts = true → truthy_name (name opts) = true) →
  ∃ l' h' s',
    test opts l h = Ok (l', h') ∧
    schema_at h' l' s' (queue_after opts tab q)
      (table_after (writes_plain h s) opts tab) ∧
    plain_at h' (_exclusive s') = writes_plain h s ∧
    (_mutate s = false → extends h h').
Proof.
  intros Hat Hf Hex. pose proof Hat as (Hs & Hq & Ht).
  unfold writes_plain.
  destruct (_mutate s) eqn:Hm; simpl.
  - eexists _, _, _. split; [by eapply test_in_window|].
    split.
    { repeat split; simpl.
      + apply list_lookup_insert_eq. by eapply lookup_lt_Some.
      + apply lookup_snoc.
      + apply list_lookup_insert_eq. by eapply lookup_lt_Some. }
    split; [done|done].
  - eexists _, _, _. split; [by eapply test_on_copy|]. split; [|split].
    + repeat split; simpl.
      * apply lookup_snoc.
      * replace (arrays h ++ [q; queue_after opts tab q])
          with ((arrays h ++ [q]) ++ [queue_after opts tab q])
          by (by rewrite <- app_assoc).
        replace (S (length (arrays h))) with (length (arrays h ++ [q]))
          by (rewrite length_app; simpl; lia).
        apply lookup_snoc.
      * apply lookup_snoc.
    + unfold plain_at. simpl. apply bool_decide_eq_true. set_solver.
    + intros _. repeat split; simpl; intros; by apply lookup_app_l_Some.
Qed.

(** The flag of the name just registered: the one given, unless the write
    was lost, and then there is none. *)
Lemma table_after_lookup p opts tab :
  truthy_name (name opts) = true →
  table_after p opts tab !! name_key (name opts) =
    if records p (name_key (name opts)) tab then Some (exclusive opts)
    else None.
Proof.
  intros Hn. unfold table_after. rewrite Hn. simpl.
  destruct (records p (name_key (name opts)) tab) eqn:E.
  - apply lookup_insert_eq.
  - unfold records in E. apply negb_false_iff in E.
    apply andb_true_iff in E as [_ E]. by apply bool_decide_eq_true in E.
Qed.

Lemma table_after_unnamed p opts tab :
  truthy_name (name opts) = false → table_after p opts tab = tab.
Proof. intros Hn. unfold table_after. by rewrite Hn. Qed.

(** *** The filter of [test] on the queue *)

Lemma named_app n q1 q2 : named n (q1 ++ q2) = named n q1 ++ named n q2.
Proof. unfold named. induction q1 as [|t q1 IH]; simpl; [done|].
  destruct (bool_decide _); simpl; by rewrite IH. Qed.

Lemma copies_app n f q1 q2 :
  copies n f (q1 ++ q2) = copies n f q1 ++ copies n f q2.
Proof. unfold copies. induction q1 as [|t q1 IH]; simpl; [done|].
  destruct (_ && _); simpl; by rewrite IH. Qed.

Lemma named_filter_exclusive opts v q :
  named (name opts) (List.filter (keep_test opts true v) q) = [].
Proof.
  unfold named. induction q as [|t q IH]; simpl; [done|].
  unfold keep_test at 1.
  destruct (bool_decide (name (OPTIONS t) = name opts)) eqn:E; simpl.
  - exact IH.
  - rewrite E. exact IH.
Qed.

Lemma copies_filter_same opts ex q :
  copies (name opts) (test_fn opts)
    (List.filter (keep_test opts ex (createValidation opts)) q) = [].
Proof.
  unfold copies. induction q as [|t q IH]; simpl; [done|].
  unfold keep_test at 1. simpl.
  destruct (bool_decide (name (OPTIONS t) = name opts)) eqn:E1; simpl.
  - destruct ex; simpl; [exact IH|].
    destruct (bool_decide (test_fn (OPTIONS t) = test_fn opts)) eqn:E2; simpl.
    + exact IH.
    + rewrite E1, E2. simpl. exact IH.
  - rewrite E1. simpl. exact IH.
Qed.

Lemma filter_keeps_last (p : Test → bool) q v :
  p v = true → ∃ pre, List.filter p (q ++ [v]) = pre ++ [v].
Proof.
  intros Hp. exists (List.filter p q).
  rewrite List.filter_app. simpl. by rewrite Hp.
Qed.

(** ** Test registration *)

(** C1.  The three coexistence policies of [test], on every live schema.
    (1) A registration with [exclusive: true], or under a name the
    exclusivity table flags, returns a schema whose queue holds exactly one
    test of that name: the new one, running the new function.  (2) Two
    registrations in a row, neither exclusive, under one name and with
    different functions, return a schema whose queue ends with both tests.
    (3) Whatever the exclusivity flag, after a registration the queue holds
    exactly one test with the name and function just registered, so
    registering a function that is already there under that name leaves one
    copy. *)
Theorem test_coexistence h l s q tab :
  schema_at h l s q tab →
  (∀ opts f,
     test_fn opts = Some f →
     truthy_name (name opts) = true →
     exclusive opts = true ∨ tab !! name_key (name opts) = Some true →
     ∃ l' h' q',
       test opts l h = Ok (l', h') ∧ queue h' l' = Some q' ∧
       named (name opts) q' = [createValidation (normalize opts)] ∧
       test_fn (OPTIONS (createValidation (normalize opts))) = Some f) ∧
  (∀ o1 o2 f1 f2,
     test_fn o1 = Some f1 → test_fn o2 = Some f2 → f1 ≠ f2 →
     name o1 = name o2 →
     exclusive o1 = false → exclusive o2 = false →
     ∃ l1 h1 l2 h2 pre,
       test o1 l h = Ok (l1, h1) ∧ test o2 l1 h1 = Ok (l2, h2) ∧
       queue h2 l2 =
         Some (pre ++ [createValidation (normalize o1);
                       createValidation (normalize o2)])) ∧
  (∀ opts f,
     test_fn opts = Some f →
     (exclusive opts = true → truthy_name (name opts) = true) →
     ∃ l' h' q',
       test opts l h = Ok (l', h') ∧ queue h' l' = Some q' ∧
       copies (name opts) (Some f) q' = [createValidation (normalize opts)]).
Proof.
  intros Hat. split; [|split].
  - intros opts f Hf Hn Hex.
    destruct (test_spec h l s q tab opts f Hat Hf (λ _, Hn))
      as (l' & h' & s' & Ht & (Hs' & Hq' & _) & _).
    exists l', h', (queue_after opts tab q).
    split; [done|]. split; [unfold queue; by rewrite Hs'|]. split.
    + unfold queue_after. rewrite named_app.
      assert (isExclusive_of opts tab = true) as ->.
      { unfold isExclusive_of. rewrite Hn. destruct Hex as [-> | ->]; [done|].
        rewrite bool_decide_true by done. by rewrite orb_true_r. }
      rewrite <- (normalize_name opts) at 1.
      rewrite named_filter_exclusive. simpl.
      rewrite normalize_name. by rewrite bool_decide_true.
    + simpl. by rewrite normalize_test_fn.
  - intros o1 o2 f1 f2 Hf1 Hf2 Hne Hname Hx1 Hx2.
    destruct (test_spec h l s q tab o1 f1 Hat Hf1) as
      (l1 & h1 & s1 & Ht1 & Hat1 & _); [by rewrite Hx1|].
    destruct (test_spec h1 l1 s1 _ _ o2 f2 Hat1 Hf2) as
      (l2 & h2 & s2 & Ht2 & (Hs2 & Hq2 & _) & _); [by rewrite Hx2|].
    assert (isExclusive_of o2 (table_after (writes_plain h s) o1 tab) = false)
      as Hnot.
    { unfold isExclusive_of. rewrite Hx2, <- Hname. simpl.
      destruct (truthy_name (name o1)) eqn:Hn; [|done]. simpl.
      rewrite table_after_lookup by done.
      destruct (records _ _ _); [|done].
      rewrite Hx1. by rewrite bool_decide_false. }
    destruct (filter_keeps_last
                (keep_test (normalize o2) false (createValidation (normalize o2)))
                (List.filter
                   (keep_test (normalize o1) (isExclusive_of o1 tab)
                      (createValidation (normalize o1))) q)
                (createValidation (normalize o1))) as (pre & Hpre).
    { unfold keep_test. simpl. rewrite !normalize_name, !normalize_test_fn.
      rewrite bool_decide_true by done.
      rewrite bool_decide_false; [done|]. rewrite Hf1, Hf2. congruence. }
    exists l1, h1, l2, h2, pre. split; [done|]. split; [done|].
    unfold queue. rewrite Hs2, Hq2. f_equal.
    unfold queue_after at 1. rewrite Hnot. unfold queue_after.
    rewrite Hpre. by rewrite <- app_assoc.
  - intros opts f Hf Hex.
    destruct (test_spec h l s q tab opts f Hat Hf Hex)
      as (l' & h' & s' & Ht & (Hs' & Hq' & _) & _).
    exists l', h', (queue_after opts tab q).
    split; [done|]. split; [unfold queue; by rewrite Hs'|].
    unfold queue_after. rewrite copies_app.
    rewrite <- (normalize_name opts), <- Hf, <- (normalize_test_fn opts).
    rewrite copies_filter_same. simpl.
    by rewrite !bool_decide_true.
Qed.

(** ** clone *)

Lemma create_mixed : create empty_heap = Ok (0, mixed_heap).
Proof. reflexivity. Qed.

(** C4, at a schema that holds itself, which
    [s.withMutation(s => s.meta({me: s}))] builds from [mixed()]: the nested
    value is a schema node, and in the clone it is the clone, not the
    identical object. *)
Lemma clone_self_nested :
  withMutation (meta_set [("me", VSchema 0)]) 0 mixed_heap
    = Ok (0, self_nested_heap) ∧
  schemas self_nested_heap !! 0 = Some self_nested_schema ∧
  _mutate self_nested_schema = false ∧
  ("me", VSchema 0) ∈ _meta self_nested_schema ∧
  ∃ h' s',
    clone 0 self_nested_heap = Ok (1, h') ∧
    schemas h' !! 1 = Some s' ∧
    _meta s' = [("me", VSchema 1)] ∧
    ("me", VSchema 0) ∉ _meta s'.
Proof.
  split; [vm_compute; reflexivity|].
  split; [done|]. split; [done|]. split; [apply list_elem_of_here|].
  eexists _, _. split; [reflexivity|]. split; [reflexivity|].
  split; [done|]. simpl. intros H%list_elem_of_singleton. discriminate H.
Qed.

Lemma clone_val_copy_of this next v : copy_of this next v (clone_val this next v).
Proof.
  unfold copy_of. destruct (decide (v = VSchema this)) as [->|Hne].
  - simpl. by rewrite bool_decide_true.
  - destruct v; try done. simpl.
    rewrite bool_decide_false; [done|]. congruence.
Qed.

Lemma clone_vals_copy_of this next vs :
  Forall2 (copy_of this next) vs (map (clone_val this next) vs).
Proof.
  induction vs as [|v vs IH]; simpl; constructor; [|done].
  apply clone_val_copy_of.
Qed.

Lemma clone_entries_copy_of this next kvs :
  Forall2 (entry_copy_of this next) kvs
    (map (λ kv, (kv.1, clone_val this next kv.2)) kvs).
Proof.
  induction kvs as [|kv kvs IH]; simpl; constructor; [|done].
  split; [done|]. apply clone_val_copy_of.
Qed.

(** C4, amended.  Inside a withMutation window [clone] returns the receiver
    itself and leaves the store alone.  Outside, it returns a new object and
    writes nothing the store held.  The copy is deep: it has a new [tests]
    array and a new [_exclusive] table, a plain object, with the entries of
    the receiver's; every other field of the copy, and every entry of its
    [spec], holds what the receiver's holds, where a nested value that is the
    receiver itself has become the copy and every other nested value, also
    every other schema node, is the value it was ([_meta], [spec.default],
    [spec.meta], the literals and references of white- and blacklist).
    Writing the copy's [tests] array leaves the receiver's queue as it
    was. *)
Theorem clone_correct h l s q tab :
  schema_at h l s q tab →
  (_mutate s = true → clone l h = Ok (l, h)) ∧
  (_mutate s = false →
   ∃ l' h' s',
     clone l h = Ok (l', h') ∧
     l' ≠ l ∧ schemas h !! l' = None ∧
     extends h h' ∧
     schema_at h' l' s' q tab ∧
     arrays h !! tests s' = None ∧
     tables h !! _exclusive s' = None ∧
     (∀ n, n ≠ l →
        (∀ k, (k, VSchema n) ∈ _meta s → (k, VSchema n) ∈ _meta s') ∧
        (default (spec s) = VSchema n → default (spec s') = VSchema n) ∧
        (meta (spec s) = VSchema n → meta (spec s') = VSchema n) ∧
        (VSchema n ∈ RefSet.list (_whitelist s) →
         VSchema n ∈ RefSet.list (_whitelist s')) ∧
        (VSchema n ∈ RefSet.list (_blacklist s) →
         VSchema n ∈ RefSet.list (_blacklist s'))) ∧
     type s' = type s ∧ deps s' = deps s ∧ transforms s' = transforms s ∧
     conditions s' = conditions s ∧ _label s' = _label s ∧
     _typeError s' = _typeError s ∧
     _whitelistError s' = _whitelistError s ∧
     _blacklistError s' = _blacklistError s ∧
     nullable (spec s') = nullable (spec s) ∧
     hasDefault (spec s') = hasDefault (spec s) ∧
     abortEarly (spec s') = abortEarly (spec s) ∧
     strip (spec s') = strip (spec s) ∧
     strict (spec s') = strict (spec s) ∧
     recursive (spec s') = recursive (spec s) ∧
     label (spec s') = label (spec s) ∧
     _mutate s' = false ∧
     plain_at h' (_exclusive s') = true ∧
     copy_of l l' (default (spec s)) (default (spec s')) ∧
     copy_of l l' (meta (spec s)) (meta (spec s')) ∧
     Forall2 (entry_copy_of l l') (_meta s) (_meta s') ∧
     Forall2 (copy_of l l') (RefSet.list (_whitelist s))
       (RefSet.list (_whitelist s')) ∧
     Forall2 (entry_copy_of l l') (RefSet.refs (_whitelist s))
       (RefSet.refs (_whitelist s')) ∧
     Forall2 (copy_of l l') (RefSet.list (_blacklist s))
       (RefSet.list (_blacklist s')) ∧
     Forall2 (entry_copy_of l l') (RefSet.refs (_blacklist s))
       (RefSet.refs (_blacklist s')) ∧
     (∀ ts, ∃ h'',
        put_array (tests s') ts h' = Ok (tt, h'') ∧
        queue h'' l' = Some ts ∧ queue h'' l = Some q)).
Proof.
  intros Hat. pose proof Hat as (Hs & Hq & Ht). split.
  - intros Hm. by apply clone_in_window with s.
  - intros Hm. eexists _, _, _.
    split; [by apply clone_copy|].
    assert (l < length (schemas h)) as Hl by by eapply lookup_lt_Some.
    assert (tests s < length (arrays h)) as Ha by by eapply lookup_lt_Some.
    split; [lia|]. split; [by apply lookup_ge_None_2|].
    split; [repeat split; simpl; intros; by apply lookup_app_l_Some|].
    split; [repeat split; simpl; apply lookup_snoc|].
    simpl. split; [by apply lookup_ge_None_2|].
    split; [by apply lookup_ge_None_2|].
    split.
    { intros n Hn. repeat split.
      - intros k Hk. apply list_elem_of_fmap.
        exists (k, VSchema n). split; [|done]. simpl.
        by rewrite bool_decide_false.
      - intros ->. simpl. by rewrite bool_decide_false.
      - intros ->. simpl. by rewrite bool_decide_false.
      - intros Hk. apply list_elem_of_fmap. exists (VSchema n).
        split; [|done]. simpl. by rewrite bool_decide_false.
      - intros Hk. apply list_elem_of_fmap. exists (VSchema n).
        split; [|done]. simpl. by rewrite bool_decide_false. }
    do 15 (split; [done|]).
    split; [simpl; exact Hm|].
    split; [unfold plain_at; simpl; apply bool_decide_eq_true; set_solver|].
    split; [apply clone_val_copy_of|]. split; [apply clone_val_copy_of|].
    split; [apply clone_entries_copy_of|].
    split; [apply clone_vals_copy_of|].
    split; [apply clone_entries_copy_of|].
    split; [apply clone_vals_copy_of|].
    split; [apply clone_entries_copy_of|].
    intros ts. eexists. split; [reflexivity|]. unfold queue. simpl.
    rewrite lookup_snoc. simpl. rewrite insert_snoc, lookup_snoc.
    split; [done|].
    rewrite (lookup_app_l_Some _ _ _ _ Hs).
    by apply lookup_app_l_Some.
Qed.

(** ** resolve *)



Lemma bind_ext {A B} (m : M A) (k1 k2 : A → M B) h :
  (∀ a h', k1 a h' = k2 a h') → bind m k1 h = bind m k2 h.
Proof. intros E. unfold bind. destruct (m h) as [[]|]; [apply E|done]. Qed.



(** *** The schema at a place, up to the identity of objects *)










(** *** One round: the clone with its conditions cleared *)





(** *** Outside a window the original is spared *)



(** *** Resolution depends on what the schema is *)



(** *** Termination of one round *)



(** *** Conditions whose branch registers a test *)






(** ** isType and cast *)

(** C6, at [mixed()]: not nullable, and [isType] accepts [null]. *)
Lemma mixed_isType_null :
  nullable (spec mixed_schema) = false ∧
  isType base mixed_schema VNull = true.
Proof. split; reflexivity. Qed.

(** C6, amended.  [isType] accepts [null] exactly when the schema is nullable
    or its [_typeCheck] accepts [null]; the base mixed type, whose
    [_typeCheck] accepts everything, accepts [null] whatever [spec.nullable]
    is. *)
Theorem isType_null C s :
  (isType C s VNull = true ↔
   nullable (spec s) = true ∨ _typeCheck C s VNull = true) ∧
  isType base s VNull = true.
Proof.
  unfold isType. split.
  - rewrite bool_decide_true by done. rewrite andb_true_r.
    destruct (nullable (spec s)); simpl; intuition congruence.
  - by destruct (nullable (spec s) && bool_decide (VNull = VNull)).
Qed.

Lemma number_schema_built :
  number_with_string_default empty_heap = Ok (1, number_heap) ∧
  schemas number_heap !! 1 = Some number_schema.
Proof. split; vm_compute; reflexivity. Qed.

(** C5, at a number schema whose default is ["abc"]: with no options,
    [cast(undefined)] returns ["abc"], which [isType] rejects, and does not
    throw. *)
Lemma cast_undefined_returns_mistyped :
  assert no_options ≠ Some false ∧
  schemas number_heap !! 1 = Some number_schema ∧
  resolve number_kind 0 VUndef no_options 1 number_heap
    = Ok (1, number_heap) ∧
  _cast number_kind number_schema VUndef number_heap
    = Ok (VStr "abc", number_heap) ∧
  isType number_kind number_schema (VStr "abc") = false ∧
  cast number_kind 0 VUndef no_options 1 number_heap
    = Ok (VStr "abc", number_heap).
Proof.
  split; [done|]. repeat split; vm_compute; reflexivity.
Qed.

(** *** The errors of the deep copy *)

Lemma benign_bind {A B} (m : M A) (k : A → M B) :
  benign_run m → (∀ a, benign_run (k a)) → benign_run (bind m k).
Proof.
  intros Hm Hk h e. unfold bind.
  destruct (m h) as [[a h1]|e1] eqn:E.
  - apply Hk.
  - intros ?; simplify_eq. by eapply Hm.
Qed.

Lemma benign_ret {A} (a : A) : benign_run (ret a).
Proof. by intros h e. Qed.

Lemma benign_get_schema l : benign_run (get_schema l).
Proof.
  intros h e. unfold get_schema. destruct (schemas h !! l); [done|].
  intros ?; simplify_eq. by left.
Qed.

Lemma benign_get_array a : benign_run (get_array a).
Proof.
  intros h e. unfold get_array. destruct (arrays h !! a); [done|].
  intros ?; simplify_eq. by left.
Qed.

Lemma benign_get_table a : benign_run (get_table a).
Proof.
  intros h e. unfold get_table. destruct (tables h !! a); [done|].
  intros ?; simplify_eq. by left.
Qed.

Section BenignCopy.

Variable copy : loc → memo → M (loc * memo).
Hypothesis copy_benign : ∀ l m, benign_run (copy l m).

Lemma benign_copy_value v m : benign_run (copy_value copy v m).
Proof.
  destruct v; try apply benign_ret. simpl.
  destruct (memo_find m l); [apply benign_ret|].
  apply benign_bind; [apply copy_benign|intros; apply benign_ret].
Qed.

Lemma benign_copy_values vs : ∀ m, benign_run (copy_values copy vs m).
Proof.
  induction vs as [|v vs IH]; intros m; simpl; [apply benign_ret|].
  apply benign_bind; [apply benign_copy_value|intros r].
  apply benign_bind; [apply IH|intros; apply benign_ret].
Qed.

Lemma benign_copy_entries kvs : ∀ m, benign_run (copy_entries copy kvs m).
Proof.
  induction kvs as [|kv kvs IH]; intros m; simpl; [apply benign_ret|].
  apply benign_bind; [apply benign_copy_value|intros r].
  apply benign_bind; [apply IH|intros; apply benign_ret].
Qed.

Lemma benign_copy_refset s m : benign_run (copy_refset copy s m).
Proof.
  unfold copy_refset.
  apply benign_bind; [apply benign_copy_values|intros r].
  apply benign_bind; [apply benign_copy_entries|intros; apply benign_ret].
Qed.

End BenignCopy.

Lemma benign_copy_node fuel : ∀ l m, benign_run (copy_node fuel l m).
Proof.
  induction fuel as [|fuel IH]; intros l m.
  - intros h e ?. simpl in *. unfold throw in *. simplify_eq. by right.
  - simpl.
    apply benign_bind; [apply benign_get_schema|intros s].
    apply benign_bind; [apply benign_get_array|intros ts].
    apply benign_bind; [apply benign_get_table|intros tab].
    apply benign_bind; [by intros h e|intros n].
    apply benign_bind; [by intros h e|intros e].
    apply benign_bind; [by apply benign_copy_refset|intros w].
    apply benign_bind; [by apply benign_copy_refset|intros b].
    apply benign_bind; [by intros h e0|intros a].
    apply benign_bind; [by apply benign_copy_value|intros sm].
    apply benign_bind; [by apply benign_copy_value|intros sd].
    apply benign_bind; [by apply benign_copy_entries|intros me].
    apply benign_bind; [by intros h e0|intros; apply benign_ret].
Qed.

Lemma benign_default_get C s : benign_run (default_get C s).
Proof.
  unfold default_get. destruct (default (spec s)); try apply benign_ret.
  apply benign_bind; [|intros; apply benign_ret].
  intros h e. unfold cloneDeep.
  apply benign_bind; [apply benign_copy_node|intros; apply benign_ret].
Qed.

Lemma benign_cast C s v : benign_run (_cast C s v).
Proof.
  unfold _cast. destruct (_ && _); [apply benign_default_get|apply benign_ret].
Qed.

(** A default that is no schema node is returned without a copy being
    made. *)
Lemma default_get_plain C s h :
  (∀ d, default (spec s) ≠ VSchema d) →
  ∃ v, default_get C s h = Ok (v, h).
Proof.
  intros Hd. unfold default_get.
  destruct (default (spec s)) eqn:E; try (by eexists).
  by destruct (Hd l).
Qed.

Lemma _cast_plain C s v h :
  (∀ d, default (spec s) ≠ VSchema d) →
  ∃ result, _cast C s v h = Ok (result, h).
Proof.
  intros Hd. unfold _cast.
  destruct (_ && _); [by apply default_get_plain|by eexists].
Qed.

Lemma cast_unfold C fuel value o l h r h' sr :
  resolve C fuel value o l h = Ok (r, h') →
  schemas h' !! r = Some sr →
  cast C fuel value o l h =
    (let* result := _cast C sr value in
     if negb (bool_decide (value = VUndef)) &&
        negb (bool_decide (assert o = Some false)) &&
        negb (bool_decide (isType C sr result = true))
     then throw (CastTypeError (path_or_field o) (type sr) value result)
     else ret result) h'.
Proof.
  intros Hr Hs. unfold cast. unfold bind at 1. rewrite Hr.
  unfold bind at 1, get_schema. by rewrite Hs.
Qed.

(** C5, amended.  Once the schema is resolved, [cast] runs [_cast] on the
    resolved schema, and an error of [_cast] is the error of [cast].  When
    [_cast] returns a result then, unless [options.assert === false], [cast]
    of a value other than [undefined] throws the type error whenever the
    resolved schema's [isType] rejects the cast result, and otherwise
    returns the cast result; with [options.assert === false] it returns the
    cast result.  And [_cast] does return, without a write to the store,
    when the default of the schema is not itself a schema node. *)
Theorem cast_correct C fuel value o l h r h' sr :
  resolve C fuel value o l h = Ok (r, h') →
  schemas h' !! r = Some sr →
  (∀ result h'',
     _cast C sr value h' = Ok (result, h'') →
     (value ≠ VUndef → assert o ≠ Some false →
      isType C sr result = false →
      cast C fuel value o l h =
        Throw (CastTypeError (path_or_field o) (type sr) value result)) ∧
     (value ≠ VUndef → assert o ≠ Some false →
      isType C sr result = true →
      cast C fuel value o l h = Ok (result, h'')) ∧
     (assert o = Some false →
      cast C fuel value o l h = Ok (result, h''))) ∧
  (∀ e, _cast C sr value h' = Throw e →
        cast C fuel value o l h = Throw e) ∧
  ((∀ d, default (spec sr) ≠ VSchema d) →
   ∃ result, _cast C sr value h' = Ok (result, h')).
Proof.
  intros Hr Hs. rewrite (cast_unfold _ _ _ _ _ _ _ _ _ Hr Hs).
  split; [|split].
  - intros result h'' Hc. unfold bind. rewrite Hc. split; [|split].
    + intros Hv Ha Ht. rewrite Ht.
      rewrite !bool_decide_false by done. done.
    + intros Hv Ha Ht. rewrite Ht.
      rewrite (bool_decide_true (true = true)) by done.
      by rewrite andb_false_r.
    + intros Ha. rewrite (bool_decide_true (assert o = Some false)) by done.
      simpl. by rewrite andb_false_r.
  - intros e He. unfold bind. by rewrite He.
  - apply _cast_plain.
Qed.

(** C10.  [cast(undefined)] is [resolve] followed by [_cast] and nothing
    else, whatever the options: the [isType] assertion is not run.  So once
    the schema is resolved, [cast(undefined)] is the run of [_cast] on the
    resolved schema and never throws the type error: it returns the result
    of [_cast], which is the configured default when there is one, whether
    [isType] accepts that default or not; and it does return, without a
    write to the store, when that default is not itself a schema node. *)
Theorem cast_undefined_unchecked C fuel o l h :
  cast C fuel VUndef o l h =
    (let* resolvedSchema := resolve C fuel VUndef o l in
     let* s := get_schema resolvedSchema in
     _cast C s VUndef) h ∧
  ∀ r h' sr,
    resolve C fuel VUndef o l h = Ok (r, h') →
    schemas h' !! r = Some sr →
    cast C fuel VUndef o l h = _cast C sr VUndef h' ∧
    (∀ p t a x, cast C fuel VUndef o l h ≠ Throw (CastTypeError p t a x)) ∧
    (default (spec sr) ≠ UNSET →
     _cast C sr VUndef h' = default_get C sr h') ∧
    ((∀ d, default (spec sr) ≠ VSchema d) →
     ∃ result, cast C fuel VUndef o l h = Ok (result, h')).
Proof.
  assert (∀ s h0,
            (let* result := _cast C s VUndef in
             if negb (bool_decide (VUndef = VUndef)) &&
                negb (bool_decide (assert o = Some false)) &&
                negb (bool_decide (isType C s result = true))
             then throw (CastTypeError (path_or_field o) (type s) VUndef
                           result)
             else ret result) h0 = _cast C s VUndef h0) as Hskip.
  { intros s h0. unfold bind. destruct (_cast C s VUndef h0) as [[]|]; [|done].
    by rewrite (bool_decide_true (VUndef = VUndef)). }
  split.
  - unfold cast. apply bind_ext. intros r h1. apply bind_ext. intros s h2.
    apply Hskip.
  - intros r h' sr Hr Hs. rewrite (cast_unfold _ _ _ _ _ _ _ _ _ Hr Hs).
    rewrite Hskip. split; [done|]. split; [|split].
    + intros p t a x E. apply benign_cast in E. by destruct E.
    + intros Hd. unfold _cast.
      rewrite (bool_decide_true (VUndef = VUndef)) by done.
      by rewrite bool_decide_false.
    + apply _cast_plain.
Qed.

(** ** oneOf and notOneOf *)

Lemma clone_live h l s q tab :
  schema_at h l s q tab →
  ∃ l' h' s0, clone l h = Ok (l', h') ∧ schemas h' !! l' = Some s0.
Proof.
  intros Hat. pose proof Hat as (Hs & _).
  destruct (_mutate s) eqn:Hm.
  - exists l, h, s. split; [by eapply clone_in_window|done].
  - eexists _, _, _. split; [by eapply clone_copy|]. simpl. apply lookup_snoc.
Qed.

Lemma modify_schema_ok h l s f :
  schemas h !! l = Some s →
  ∃ h', modify_schema l f h = Ok (tt, h') ∧ schemas h' !! l = Some (f s).
Proof.
  intros Hs. eexists. unfold modify_schema, bind, get_schema, put_schema.
  rewrite Hs. split; [done|]. simpl.
  apply list_lookup_insert_eq. by eapply lookup_lt_Some.
Qed.

Lemma map_set_fst k v m k' :
  k' ∈ map fst (RefSet.map_set k v m) ↔ k' = k ∨ k' ∈ map fst m.
Proof.
  induction m as [|[k0 v0] m IH]; simpl.
  - rewrite list_elem_of_singleton. split; [auto|].
    intros [?|H]; [done|]. by apply elem_of_nil in H.
  - case_bool_decide; simpl; rewrite !elem_of_cons; [|rewrite IH];
      naive_solver.
Qed.

Lemma map_delete_fst k m k' :
  k' ∈ map fst (RefSet.map_delete k m) ↔ k' ≠ k ∧ k' ∈ map fst m.
Proof.
  unfold RefSet.map_delete. rewrite !list_elem_of_fmap. split.
  - intros ([k0 v0] & -> & H%list_elem_of_filter). simpl in *.
    destruct H as [? ?]. split; [done|]. by exists (k0, v0).
  - intros (Hne & [k0 v0] & -> & H). exists (k0, v0). split; [done|].
    apply list_elem_of_filter. by split.
Qed.

Lemma set_add_elem v l v' :
  v' ∈ RefSet.set_add v l ↔ v' = v ∨ v' ∈ l.
Proof.
  unfold RefSet.set_add. case_bool_decide.
  - naive_solver.
  - rewrite elem_of_app, list_elem_of_singleton. naive_solver.
Qed.

Lemma set_delete_elem v l v' :
  v' ∈ RefSet.set_delete v l ↔ v' ≠ v ∧ v' ∈ l.
Proof. unfold RefSet.set_delete. by rewrite list_elem_of_filter. Qed.

Lemma member_add_same v s : member v (RefSet.add v s) = true.
Proof.
  destruct v; simpl; apply bool_decide_eq_true;
    first [apply set_add_elem | apply map_set_fst]; by left.
Qed.

Lemma member_add_keeps v w s :
  member v s = true → member v (RefSet.add w s) = true.
Proof.
  destruct v, w; simpl; rewrite !bool_decide_eq_true; try done;
    intros H; first [apply set_add_elem | apply map_set_fst]; by right.
Qed.

Lemma member_delete_same v s : member v (RefSet.delete v s) = false.
Proof.
  destruct v; simpl; apply bool_decide_eq_false;
    first [rewrite set_delete_elem | rewrite map_delete_fst]; naive_solver.
Qed.

Lemma member_delete_keeps v w s :
  member v s = false → member v (RefSet.delete w s) = false.
Proof.
  destruct v, w; simpl; rewrite !bool_decide_eq_false; try done;
    intros H; first [rewrite set_delete_elem | rewrite map_delete_fst];
    naive_solver.
Qed.

Lemma oneOf_step_invariant v enums :
  ∀ s,
    (v ∈ enums ∨
     (member v (_whitelist s) = true ∧ member v (_blacklist s) = false)) →
    member v (_whitelist (foldl oneOf_step s enums)) = true ∧
    member v (_blacklist (foldl oneOf_step s enums)) = false.
Proof.
  induction enums as [|w enums IH]; intros s H.
  - destruct H as [H|H]; [by apply elem_of_nil in H|done].
  - simpl. apply IH. destruct H as [H|[H1 H2]].
    + apply elem_of_cons in H as [->|H]; [|by left].
      right. simpl. split; [apply member_add_same|apply member_delete_same].
    + right. simpl.
      split; [by apply member_add_keeps|by apply member_delete_keeps].
Qed.

Lemma notOneOf_step_invariant v enums :
  ∀ s,
    (v ∈ enums ∨
     (member v (_blacklist s) = true ∧ member v (_whitelist s) = false)) →
    member v (_blacklist (foldl notOneOf_step s enums)) = true ∧
    member v (_whitelist (foldl notOneOf_step s enums)) = false.
Proof.
  induction enums as [|w enums IH]; intros s H.
  - destruct H as [H|H]; [by apply elem_of_nil in H|done].
  - simpl. apply IH. destruct H as [H|[H1 H2]].
    + apply elem_of_cons in H as [->|H]; [|by left].
      right. simpl. split; [apply member_add_same|apply member_delete_same].
    + right. simpl.
      split; [by apply member_add_keeps|by apply member_delete_keeps].
Qed.

(** C8.  On every live schema [oneOf] returns a schema in which each given
    value is in the whitelist and not in the blacklist, and [notOneOf] one in
    which each given value is in the blacklist and not in the whitelist.  For
    [mixed().oneOf([1, 2, 3]).notOneOf([2])] the value [2] is in the
    blacklist, no longer in the whitelist, and validation of [2] ends with an
    error. *)
Theorem oneOf_notOneOf h l s q tab enums msg :
  schema_at h l s q tab →
  (∃ l' h' s',
     oneOf enums msg l h = Ok (l', h') ∧ schemas h' !! l' = Some s' ∧
     ∀ v, v ∈ enums →
          member v (_whitelist s') = true ∧ member v (_blacklist s') = false) ∧
  (∃ l' h' s',
     notOneOf enums msg l h = Ok (l', h') ∧ schemas h' !! l' = Some s' ∧
     ∀ v, v ∈ enums →
          member v (_blacklist s') = true ∧ member v (_whitelist s') = false) ∧
  (one_two_three_not_two empty_heap = Ok (2, enum_heap) ∧
   schemas enum_heap !! 2 = Some enum_schema ∧
   member (VNum 2) (_blacklist enum_schema) = true ∧
   member (VNum 2) (_whitelist enum_schema) = false ∧
   member (VNum 1) (_whitelist enum_schema) = true ∧
   member (VNum 3) (_whitelist enum_schema) = true ∧
   ∃ r, validateSync base 0 (VNum 2) no_options 2 enum_heap
          = Ok (r, enum_heap) ∧ err r ≠ []).
Proof.
  intros Hat. split; [|split].
  - destruct (clone_live h l s q tab Hat) as (l' & h1 & s0 & Hcl & Hs0).
    destruct (modify_schema_ok h1 l' s0 (λ s, foldl oneOf_step s enums) Hs0)
      as (h2 & Hm2 & Hs2).
    destruct (modify_schema_ok h2 l' _
                (set_whitelistError
                   (Some (createValidation
                            (mkTestConfig (Some "oneOf") (Some msg) false
                               (Some OneOfFn))))) Hs2)
      as (h3 & Hm3 & Hs3).
    eexists l', h3, _. split; [|split; [exact Hs3|]].
    + unfold oneOf. unfold bind at 1. rewrite Hcl.
      unfold bind at 1. rewrite Hm2. unfold bind at 1. by rewrite Hm3.
    + intros v Hv. simpl. apply oneOf_step_invariant. by left.
  - destruct (clone_live h l s q tab Hat) as (l' & h1 & s0 & Hcl & Hs0).
    destruct (modify_schema_ok h1 l' s0 (λ s, foldl notOneOf_step s enums) Hs0)
      as (h2 & Hm2 & Hs2).
    destruct (modify_schema_ok h2 l' _
                (set_blacklistError
                   (Some (createValidation
                            (mkTestConfig (Some "notOneOf") (Some msg) false
                               (Some NotOneOfFn))))) Hs2)
      as (h3 & Hm3 & Hs3).
    eexists l', h3, _. split; [|split; [exact Hs3|]].
    + unfold notOneOf. unfold bind at 1. rewrite Hcl.
      unfold bind at 1. rewrite Hm2. unfold bind at 1. by rewrite Hm3.
    + intros v Hv. simpl. apply notOneOf_step_invariant. by left.
  - split; [vm_compute; reflexivity|]. split; [vm_compute; reflexivity|].
    do 4 (split; [vm_compute; reflexivity|]).
    exists (mkValidation
              [createValidation
                 (mkTestConfig (Some "oneOf") (Some (LocaleMsg "oneOf")) false
                    (Some OneOfFn))]
              (VNum 2)
              [notType_test;
               createValidation
                 (mkTestConfig (Some "oneOf") (Some (LocaleMsg "oneOf")) false
                    (Some OneOfFn))]).
    split; [vm_compute; reflexivity|done].
Qed.

(** ** Validation *)

Lemma runTests_all_pass run endEarly ts :
  Forall (λ t, run t = true) ts → runTests run endEarly ts = (ts, []).
Proof.
  induction 1 as [|t ts Ht _ IH]; simpl; [done|]. by rewrite Ht, IH.
Qed.

Lemma runTests_prefix run endEarly ts :
  (runTests run endEarly ts).1 `prefix_of` ts.
Proof.
  induction ts as [|t ts IH]; simpl; [done|].
  destruct (run t).
  - destruct (runTests run endEarly ts) as [ran failed]. simpl in *.
    by apply prefix_cons.
  - destruct endEarly.
    + simpl. apply prefix_cons, prefix_nil.
    + destruct (runTests run false ts) as [ran failed]. simpl in *.
      by apply prefix_cons.
Qed.

Lemma runTests_failure run endEarly ts :
  Exists (λ t, run t = false) ts → (runTests run endEarly ts).2 ≠ [].
Proof.
  induction 1 as [t ts Ht|t ts _ IH]; simpl.
  - rewrite Ht. destruct endEarly; [done|].
    by destruct (runTests run false ts).
  - destruct (run t).
    + by destruct (runTests run endEarly ts).
    + destruct endEarly; [done|]. by destruct (runTests run false ts).
Qed.

(** With abort-early, the first failing test ends the run and is the only
    error. *)
Lemma runTests_abort_early run ts :
  Exists (λ t, run t = false) ts →
  ∃ pre t post,
    ts = pre ++ t :: post ∧ Forall (λ t, run t = true) pre ∧
    run t = false ∧ runTests run true ts = (pre ++ [t], [t]).
Proof.
  induction ts as [|t ts IH]; intros H; [by apply Exists_nil in H|].
  destruct (run t) eqn:Ht.
  - apply Exists_cons in H as [H|H]; [congruence|].
    destruct (IH H) as (pre & t' & post & -> & Hpre & Ht' & Hr).
    exists (t :: pre), t', post. split; [done|].
    split; [by constructor|]. split; [done|].
    simpl. by rewrite Ht, Hr.
  - exists [], t, ts. split; [done|]. split; [constructor|]. split; [done|].
    simpl. by rewrite Ht.
Qed.

(** *** The deep copy keeps the arrays of the store *)

Lemma keeps_bind {A B} (m : M A) (k : A → M B) :
  keeps_arrays m → (∀ a, keeps_arrays (k a)) → keeps_arrays (bind m k).
Proof.
  intros Hm Hk h b h'. unfold bind.
  destruct (m h) as [[a h1]|] eqn:E; [|done].
  intros E'. etrans; [by eapply Hm|by eapply Hk].
Qed.

Lemma keeps_ret {A} (a : A) : keeps_arrays (ret a).
Proof. intros h b h' ?. unfold ret in *. by simplify_eq. Qed.

Lemma keeps_get_schema l : keeps_arrays (get_schema l).
Proof.
  intros h b h'. unfold get_schema. destruct (schemas h !! l); [|done].
  intros ?. by simplify_eq.
Qed.

Lemma keeps_get_array a : keeps_arrays (get_array a).
Proof.
  intros h b h'. unfold get_array. destruct (arrays h !! a); [|done].
  intros ?. by simplify_eq.
Qed.

Lemma keeps_get_table a : keeps_arrays (get_table a).
Proof.
  intros h b h'. unfold get_table. destruct (tables h !! a); [|done].
  intros ?. by simplify_eq.
Qed.

Lemma keeps_new_schema s : keeps_arrays (new_schema s).
Proof. intros h b h' ?. unfold new_schema in *. by simplify_eq. Qed.

Lemma keeps_put_schema l s : keeps_arrays (put_schema l s).
Proof. intros h b h' ?. unfold put_schema in *. by simplify_eq. Qed.

Lemma keeps_new_table p t : keeps_arrays (new_table p t).
Proof. intros h b h' ?. unfold new_table in *. by simplify_eq. Qed.

Lemma keeps_new_array ts : keeps_arrays (new_array ts).
Proof.
  intros h b h' ?. unfold new_array in *. simplify_eq. simpl.
  by apply prefix_app_r.
Qed.

Section KeepsCopy.

Variable copy : loc → memo → M (loc * memo).
Hypothesis copy_keeps : ∀ l m, keeps_arrays (copy l m).

Lemma keeps_copy_value v m : keeps_arrays (copy_value copy v m).
Proof.
  destruct v; try apply keeps_ret. simpl.
  destruct (memo_find m l); [apply keeps_ret|].
  apply keeps_bind; [apply copy_keeps|intros; apply keeps_ret].
Qed.

Lemma keeps_copy_values vs : ∀ m, keeps_arrays (copy_values copy vs m).
Proof.
  induction vs as [|v vs IH]; intros m; simpl; [apply keeps_ret|].
  apply keeps_bind; [apply keeps_copy_value|intros r].
  apply keeps_bind; [apply IH|intros; apply keeps_ret].
Qed.

Lemma keeps_copy_entries kvs : ∀ m, keeps_arrays (copy_entries copy kvs m).
Proof.
  induction kvs as [|kv kvs IH]; intros m; simpl; [apply keeps_ret|].
  apply keeps_bind; [apply keeps_copy_value|intros r].
  apply keeps_bind; [apply IH|intros; apply keeps_ret].
Qed.

Lemma keeps_copy_refset s m : keeps_arrays (copy_refset copy s m).
Proof.
  unfold copy_refset.
  apply keeps_bind; [apply keeps_copy_values|intros r].
  apply keeps_bind; [apply keeps_copy_entries|intros; apply keeps_ret].
Qed.

End KeepsCopy.

Lemma keeps_copy_node fuel : ∀ l m, keeps_arrays (copy_node fuel l m).
Proof.
  induction fuel as [|fuel IH]; intros l m; [by intros h b h'|].
  simpl.
  apply keeps_bind; [apply keeps_get_schema|intros s].
  apply keeps_bind; [apply keeps_get_array|intros ts].
  apply keeps_bind; [apply keeps_get_table|intros tab].
  apply keeps_bind; [apply keeps_new_schema|intros n].
  apply keeps_bind; [apply keeps_new_table|intros e].
  apply keeps_bind; [by apply keeps_copy_refset|intros w].
  apply keeps_bind; [by apply keeps_copy_refset|intros b].
  apply keeps_bind; [apply keeps_new_array|intros a].
  apply keeps_bind; [by apply keeps_copy_value|intros sm].
  apply keeps_bind; [by apply keeps_copy_value|intros sd].
  apply keeps_bind; [by apply keeps_copy_entries|intros me].
  apply keeps_bind; [apply keeps_put_schema|intros; apply keeps_ret].
Qed.

Lemma keeps_default_get C s : keeps_arrays (default_get C s).
Proof.
  unfold default_get. destruct (default (spec s)); try apply keeps_ret.
  apply keeps_bind; [|intros; apply keeps_ret].
  intros h b h'. unfold cloneDeep.
  apply keeps_bind; [apply keeps_copy_node|intros; apply keeps_ret].
Qed.

Lemma keeps_cast C s v : keeps_arrays (_cast C s v).
Proof.
  unfold _cast. destruct (_ && _); [apply keeps_default_get|apply keeps_ret].
Qed.

(** The first batch of [_validate], test by test. *)
Lemma initialTests_batch s :
  initialTests s =
    option_list (_typeError s) ++ option_list (_whitelistError s) ++
    option_list (_blacklistError s).
Proof.
  unfold initialTests.
  by destruct (_typeError s), (_whitelistError s), (_blacklistError s).
Qed.

(** C9.  [_validate] on a live schema first obtains the value, cast unless
    strict; an error of the cast is the outcome, and the cast returns,
    without a write to the store, under strict or when the default of the
    schema is not itself a schema node.  Once the value is there [_validate]
    returns.  The first batch is the type-error test, the whitelist-error
    test and the blacklist-error test, those that are present, in that
    order.  When all of them pass, the tests that ran are this batch
    followed by the run of the user queue under the same abort-early
    setting.  When one of them fails, the tests that ran are a prefix of the
    batch, so no user test ran, and the outcome is the error of the batch;
    with abort-early set the run ends at the first failing test of the
    batch, which is the only error. *)
Theorem validate_order C _value o h l s q :
  schemas h !! l = Some s →
  arrays h !! tests s = Some q →
  let abort := from_option id (abortEarly (spec s)) (opt_abortEarly o) in
  let strict' := from_option id (strict (spec s)) (opt_strict o) in
  let cast_step := if strict' then ret _value else _cast C s _value in
  let batch :=
    option_list (_typeError s) ++ option_list (_whitelistError s) ++
    option_list (_blacklistError s) in
  (∀ value h1,
     cast_step h = Ok (value, h1) →
     let run := run_test C s o value in
     ∃ r,
       _validate C _value o l h = Ok (r, h1) ∧ val r = value ∧
       (Forall (λ t, run t = true) batch →
        ran r = batch ++ (runTests run abort q).1 ∧
        err r = (runTests run abort q).2) ∧
       (Exists (λ t, run t = false) batch →
        ran r `prefix_of` batch ∧
        err r = (runTests run abort batch).2 ∧ err r ≠ [] ∧
        (abort = true →
         ∃ pre t post,
           batch = pre ++ t :: post ∧
           Forall (λ t, run t = true) pre ∧ run t = false ∧
           ran r = pre ++ [t] ∧ err r = [t]))) ∧
  (∀ e, cast_step h = Throw e → _validate C _value o l h = Throw e) ∧
  (strict' = true ∨ (∀ d, default (spec s) ≠ VSchema d) →
   ∃ value, cast_step h = Ok (value, h)).
Proof.
  intros Hs Hq abort strict' cast_step batch.
  assert (_validate C _value o l h =
            (let* value := cast_step in
             let '(ran1, failed1) :=
               runTests (run_test C s o value) abort batch in
             match failed1 with
             | _ :: _ => ret (mkValidation failed1 value ran1)
             | [] =>
                 let* user := get_array (tests s) in
                 let '(ran2, failed2) :=
                   runTests (run_test C s o value) abort user in
                 ret (mkValidation failed2 value (ran1 ++ ran2))
             end) h) as ->.
  { unfold _validate. unfold bind at 1, get_schema at 1. rewrite Hs.
    unfold batch. by rewrite <- initialTests_batch. }
  split; [|split].
  - intros value h1 Hcast run. unfold bind at 1. rewrite Hcast. fold run.
    assert (arrays h1 !! tests s = Some q) as Hq1.
    { assert (keeps_arrays cast_step) as Hk.
      { unfold cast_step. destruct strict'; [apply keeps_ret|].
        apply keeps_cast. }
      eapply prefix_lookup_Some; [exact Hq|]. by eapply Hk. }
    destruct (runTests run abort batch) as [ran1 failed1] eqn:E1.
    destruct failed1 as [|t1 failed1].
    + unfold bind, get_array. rewrite Hq1.
      destruct (runTests run abort q) as [ran2 failed2] eqn:E2.
      eexists. split; [reflexivity|]. split; [done|]. split.
      * intros Hall. rewrite (runTests_all_pass _ _ _ Hall) in E1.
        by simplify_eq.
      * intros Hex. apply (runTests_failure run abort) in Hex.
        rewrite E1 in Hex. done.
    + eexists. split; [reflexivity|]. split; [done|]. split.
      * intros Hall. rewrite (runTests_all_pass _ _ _ Hall) in E1. done.
      * intros Hex. simpl.
        split.
        { pose proof (runTests_prefix run abort batch) as Hp.
          by rewrite E1 in Hp. }
        split; [done|]. split; [done|].
        intros Hab. rewrite Hab in E1.
        destruct (runTests_abort_early run _ Hex)
          as (pre & t & post & Hi & Hpre & Ht & Hr).
        rewrite Hr in E1. injection E1 as <- <- <-.
        by exists pre, t, post.
  - intros e He. unfold bind. by rewrite He.
  - intros [Hst|Hd]; unfold cast_step.
    + rewrite Hst. by eexists.
    + destruct strict'; [by eexists|]. by apply _cast_plain.
Qed.

(** ** concat *)

Lemma modify_schema_frame h l s f :
  schemas h !! l = Some s →
  ∃ h',
    modify_schema l f h = Ok (tt, h') ∧
    schemas h' !! l = Some (f s) ∧
    (∀ l0, l0 ≠ l → schemas h' !! l0 = schemas h !! l0) ∧
    arrays h' = arrays h ∧ tables h' = tables h.
Proof.
  intros Hs. eexists. unfold modify_schema, bind, get_schema, put_schema.
  rewrite Hs. split; [done|]. simpl.
  split; [apply list_lookup_insert_eq; by eapply lookup_lt_Some|].
  split; [|done]. intros l0 Hne. by apply list_lookup_insert_ne.
Qed.

Lemma modify_schema_writes h l s f :
  schemas h !! l = Some s →
  ∃ h',
    modify_schema l f h = Ok (tt, h') ∧
    schemas h' !! l = Some (f s) ∧
    (∀ l0, l0 ≠ l → schemas h' !! l0 = schemas h !! l0) ∧
    arrays h' = arrays h ∧ tables h' = tables h ∧ protos h' = protos h.
Proof.
  intros Hs. eexists. unfold modify_schema, bind, get_schema, put_schema.
  rewrite Hs. split; [done|]. simpl.
  split; [apply list_lookup_insert_eq; by eapply lookup_lt_Some|].
  split; [|done]. intros l0 Hne. by apply list_lookup_insert_ne.
Qed.

Lemma put_schema_writes h l s s' :
  schemas h !! l = Some s →
  ∃ h',
    put_schema l s' h = Ok (tt, h') ∧
    schemas h' !! l = Some s' ∧
    (∀ l0, l0 ≠ l → schemas h' !! l0 = schemas h !! l0) ∧
    arrays h' = arrays h ∧ tables h' = tables h ∧ protos h' = protos h.
Proof.
  intros Hs. eexists. unfold put_schema. split; [done|]. simpl.
  split; [apply list_lookup_insert_eq; by eapply lookup_lt_Some|].
  split; [|done]. intros l0 Hne. by apply list_lookup_insert_ne.
Qed.

Lemma after_all_cons p t ts q tab :
  after_all p (t :: ts) q tab =
    after_all p ts (queue_after (OPTIONS t) tab q)
      (table_after p (OPTIONS t) tab).
Proof. reflexivity. Qed.

(** The loop of [concat] over the other schema's tests, run inside the
    window on [next]: [next] ends with the queue and the table that
    registering the tests one by one gives; its table is written in place,
    every array the store held is left as it was, and so is every other
    schema object and every other table. *)
Lemma register_all_in_window ts :
  Forall registrable ts →
  ∀ h n s q tab,
    schema_at h n s q tab → _mutate s = true →
    ∃ h' a,
      register_all ts n h = Ok (tt, h') ∧
      schema_at h' n (set_tests a s)
        (after_all (plain_at h (_exclusive s)) ts q tab).1
        (after_all (plain_at h (_exclusive s)) ts q tab).2 ∧
      (∀ l, l ≠ n → schemas h' !! l = schemas h !! l) ∧
      (∀ a0 q0, arrays h !! a0 = Some q0 → arrays h' !! a0 = Some q0) ∧
      (∀ e, e ≠ _exclusive s → tables h' !! e = tables h !! e) ∧
      protos h' = protos h.
Proof.
  induction 1 as [|t ts [[f Hf] Hex] _ IH]; intros h n s q tab Hat Hm.
  - exists h, (tests s). split; [done|].
    replace (set_tests (tests s) s) with s by by destruct s.
    split; [exact Hat|]. by split; [|split].
  - pose proof Hat as (Hs & Hq & Ht).
    assert (n < length (schemas h)) as Hn by by eapply lookup_lt_Some.
    assert (_exclusive s < length (tables h)) as He
      by by eapply lookup_lt_Some.
    pose proof (test_in_window h n s q tab (OPTIONS t) f Hat Hm Hf Hex) as E.
    match type of E with _ = Ok (_, ?x) => set (h1 := x) in * end.
    assert (schema_at h1 n (set_tests (length (arrays h)) s)
              (queue_after (OPTIONS t) tab q)
              (table_after (plain_at h (_exclusive s)) (OPTIONS t) tab))
      as Hat1.
    { repeat split; simpl.
      - by apply list_lookup_insert_eq.
      - apply lookup_snoc.
      - by apply list_lookup_insert_eq. }
    destruct (IH h1 n _ _ _ Hat1 Hm)
      as (h' & a & Hr & Hat' & F1 & F2 & F3 & F4).
    exists h', a. split.
    { simpl. unfold bind. by rewrite E. }
    split; [by rewrite after_all_cons|].
    split; [|split; [|split]].
    + intros l Hl. rewrite F1 by done. simpl.
      by apply list_lookup_insert_ne.
    + intros a0 q0 H0. apply F2. simpl. by apply lookup_app_l_Some.
    + intros e Hne. rewrite F3 by done. simpl.
      by apply list_lookup_insert_ne.
    + by rewrite F4.
Qed.

(** One write to the schema object [n] on the way through [concat]: the
    lookups at [n], at the receiver [a] and at the other schema [b] are
    brought along. *)
Ltac concat_step lem Hn Ha Hb :=
  let h' := fresh "h" in
  let E := fresh "E" in
  let Hn' := fresh "Hn" in
  let F := fresh "F" in
  let A := fresh "A" in
  let T := fresh "T" in
  let P := fresh "P" in
  destruct lem as (h' & E & Hn' & F & A & T & P);
  unfold bind at 1; rewrite E;
  match type of Ha with _ !! ?a = _ =>
    rewrite <- (F a ltac:(assumption)) in Ha end;
  match type of Hb with _ !! ?b = _ =>
    rewrite <- (F b ltac:(assumption)) in Hb end;
  clear E F Hn; rename Hn' into Hn.

(** [concat] on two live schemas, the other one outside a window and with
    registrable tests: it returns a new schema [n]; the queue and the table of
    [n] are the receiver's after registering the other's tests one by one;
    the table is the receiver's own table, written in place; the receiver's
    schema object and its [tests] array are as before. *)
Lemma concat_spec h a b sa sb qa qb ta tb :
  schema_at h a sa qa ta → schema_at h b sb qb tb → a ≠ b →
  type sb = type sa ∨ type sa = "mixed" →
  _mutate sb = false → Forall registrable qb →
  ∃ n h' sn,
    concat (Some b) a h = Ok (n, h') ∧
    schemas h !! n = None ∧
    schemas h' !! n = Some sn ∧
    default (spec sn) =
      (if hasDefault (spec sb) then default (spec sb)
       else merge_val (clone_val b n (default (spec sb)))
              (default (spec sa))) ∧
    _exclusive sn = _exclusive sa ∧
    queue h' n = Some (after_all (plain_at h (_exclusive sa)) qb qa ta).1 ∧
    exclusive_table h' n = Some (after_all (plain_at h (_exclusive sa)) qb qa ta).2 ∧
    schemas h' !! a = Some sa ∧
    queue h' a = Some qa ∧
    exclusive_table h' a = Some (after_all (plain_at h (_exclusive sa)) qb qa ta).2.
Proof.
  intros Hata Hatb Hne Hty Hmb Hreg.
  pose proof Hata as (Ha & Hqa & Hta). pose proof Hatb as (Hb & Hqb & Htb).
  assert (a < length (schemas h)) as La by by eapply lookup_lt_Some.
  assert (b < length (schemas h)) as Lb by by eapply lookup_lt_Some.
  unfold concat. rewrite bool_decide_false by congruence.
  unfold bind at 1, get_schema at 1. rewrite Hb.
  unfold bind at 1, get_schema at 1. rewrite Ha.
  assert (negb (bool_decide (type sb = type sa)) &&
          negb (bool_decide (type sa = "mixed")) = false) as ->.
  { destruct Hty as [Hty|Hty]; rewrite (bool_decide_true _ Hty); simpl;
      [done|apply andb_false_r]. }
  unfold bind at 1. rewrite (clone_copy h b sb qb tb Hatb Hmb).
  set (n := length (schemas h)).
  set (cs := clone_schema b n (length (arrays h)) (length (tables h)) sb).
  set (h1 := mkHeap (schemas h ++ [cs]) (arrays h ++ [qb]) (tables h ++ [tb])
              ({[length (tables h)]} ∪ protos h)).
  assert (schemas h1 !! n = Some cs) as Hn by apply lookup_snoc.
  assert (schemas h1 !! a = Some sa) as Ha1 by by apply lookup_app_l_Some.
  assert (schemas h1 !! b = Some sb) as Hb1 by by apply lookup_app_l_Some.
  assert (arrays h1 !! tests sa = Some qa) as Hqa1
    by by apply lookup_app_l_Some.
  assert (arrays h1 !! tests sb = Some qb) as Hqb1
    by by apply lookup_app_l_Some.
  assert (tables h1 !! _exclusive sa = Some ta) as Hta1
    by by apply lookup_app_l_Some.
  assert (∀ a0 q0, arrays h !! a0 = Some q0 → arrays h1 !! a0 = Some q0)
    as Harr by (intros; by apply lookup_app_l_Some).
  assert (bool_decide (_exclusive sa ∈ protos h1) =
          plain_at h (_exclusive sa)) as Hpl.
  { unfold plain_at. apply bool_decide_ext. simpl.
    apply lookup_lt_Some in Hta. set_solver by lia. }
  assert (a ≠ n) as Hna by (unfold n; lia).
  assert (b ≠ n) as Hnb by (unfold n; lia).
  clearbody h1.
  unfold bind at 1, get_schema at 1. rewrite Hn.
  concat_step (put_schema_writes h1 n cs (merge cs sa) Hn) Hn Ha1 Hb1.
  rewrite <- A in Hqa1, Hqb1. rewrite <- T in Hta1. rewrite <- P in Hpl.
  unfold bind at 1, get_schema at 1. rewrite Hb1.
  set (S1 := if hasDefault (spec sb)
             then set_spec (set_default (default (spec sb))) (merge cs sa)
             else merge cs sa).
  assert (∃ h2,
            (if hasDefault (spec sb)
             then modify_schema n
                    (set_spec (set_default (default (spec sb))))
             else ret tt) h0 = Ok (tt, h2) ∧
            schemas h2 !! n = Some S1 ∧
            (∀ l0, l0 ≠ n → schemas h2 !! l0 = schemas h0 !! l0) ∧
            arrays h2 = arrays h0 ∧ tables h2 = tables h0 ∧
            protos h2 = protos h0) as Hstep.
  { subst S1. destruct (hasDefault (spec sb)).
    - by apply modify_schema_writes.
    - exists h0. by repeat split. }
  clear A T P.
  concat_step Hstep Hn Ha1 Hb1.
  rewrite <- A in Hqa1, Hqb1. rewrite <- T in Hta1. rewrite <- P in Hpl. clear A T P.
  unfold bind at 1, get_schema at 1. rewrite Ha1.
  concat_step (modify_schema_writes h2 n _ (set_tests (tests sa)) Hn)
    Hn Ha1 Hb1.
  rewrite <- A in Hqa1, Hqb1. rewrite <- T in Hta1. rewrite <- P in Hpl. clear A T P.
  concat_step (modify_schema_writes h3 n _ (set_exclusive (_exclusive sa)) Hn)
    Hn Ha1 Hb1.
  rewrite <- A in Hqa1, Hqb1. rewrite <- T in Hta1. rewrite <- P in Hpl. clear A T P.
  unfold bind at 1, get_schema at 1. rewrite Ha1.
  unfold bind at 1, get_schema at 1. rewrite Hb1.
  concat_step
    (modify_schema_writes h4 n _
       (λ s, set_lists
               (RefSet.merge (_whitelist sb) (_blacklist sb) (_whitelist sa))
               (_blacklist s) s) Hn)
    Hn Ha1 Hb1.
  rewrite <- A in Hqa1, Hqb1. rewrite <- T in Hta1. rewrite <- P in Hpl. clear A T P.
  unfold bind at 1, get_schema at 1. rewrite Ha1.
  unfold bind at 1, get_schema at 1. rewrite Hb1.
  concat_step
    (modify_schema_writes h5 n _
       (λ s, set_lists (_whitelist s)
               (RefSet.merge (_blacklist sb) (_whitelist sb) (_blacklist sa))
               s) Hn)
    Hn Ha1 Hb1.
  rewrite <- A in Hqa1, Hqb1. rewrite <- T in Hta1. rewrite <- P in Hpl. clear A T P.
  unfold bind at 1, get_schema at 1. rewrite Hb1.
  unfold bind at 1, get_array at 1. rewrite Hqb1.
  unfold withMutation.
  unfold bind at 1. unfold bind at 1. unfold get_schema at 1. rewrite Hn.
  match type of Hn with _ = Some ?x => set (S2 := x) in * end.
  concat_step (put_schema_writes h6 n S2 (set_mutate true S2) Hn) Hn Ha1 Hb1.
  rewrite <- A in Hqa1, Hqb1. rewrite <- T in Hta1. rewrite <- P in Hpl. clear A T P.
  destruct (register_all_in_window qb Hreg h7 n (set_mutate true S2) qa ta)
    as (h8 & a8 & E8 & (Hn8 & Hq8 & Ht8) & F1 & F2 & F3 & F4);
    [by repeat split|done|].
  change (plain_at h7 (_exclusive (set_mutate true S2)))
    with (bool_decide (_exclusive sa ∈ protos h7)) in Hq8, Ht8.
  rewrite Hpl in Hq8, Ht8.
  unfold bind at 1. rewrite E8.
  rewrite <- (F1 a Hna) in Ha1.
  unfold bind at 1.
  destruct (modify_schema_writes h8 n _ (set_mutate (_mutate S2)) Hn8)
    as (h9 & E9 & Hn9 & F9 & A9 & T9 & P9).
  rewrite E9. unfold ret.
  eexists n, h9, _. split; [done|].
  split; [by apply lookup_ge_None_2|].
  split; [exact Hn9|].
  split; [subst S2 S1; simpl; by destruct (hasDefault (spec sb))|].
  split; [done|].
  unfold queue, exclusive_table. rewrite Hn9. simpl. rewrite A9, T9.
  split; [exact Hq8|]. split; [exact Ht8|].
  rewrite (F9 a Hna), Ha1.
  split; [done|]. split; [by apply F2, Hqa1|exact Ht8].
Qed.

(** C2, at [X = mixed().default(7)] and
    [Y = mixed().default(1).concat(mixed())].  [Y] set no default of its own
    ([hasDefault] is false) and holds the default [1] it took over in its own
    [concat]; [X.concat(Y)] has the default [1], not the [7] of the
    receiver.  And at [A = mixed().default(1)] and
    [B = mixed().default(undefined)] inside a withMutation window: [B] set
    its default, [undefined], and [A.concat(B)], which is [B] itself there,
    has the default [1]. *)
Lemma concat_default_lost :
  inherited_default empty_heap = Ok ((1, 5, 6), inherited_default_heap) ∧
  (hasDefault ∘ spec) <$> schemas inherited_default_heap !! 5 = Some false ∧
  (default ∘ spec) <$> schemas inherited_default_heap !! 5
    = Some (VNum 1) ∧
  (default ∘ spec) <$> schemas inherited_default_heap !! 1
    = Some (VNum 7) ∧
  (default ∘ spec) <$> schemas inherited_default_heap !! 6
    = Some (VNum 1) ∧
  (hasDefault ∘ spec) <$> schemas default_pair_heap !! 4 = Some true ∧
  (default ∘ spec) <$> schemas default_pair_heap !! 4 = Some VUndef ∧
  (default ∘ spec) <$> schemas default_pair_heap !! 1 = Some (VNum 1) ∧
  concat_in_window default_pair_heap = Ok (4, concat_in_window_heap) ∧
  (default ∘ spec) <$> schemas concat_in_window_heap !! 4 = Some (VNum 1).
Proof.
  do 9 (split; [vm_compute; reflexivity|]). vm_compute; reflexivity.
Qed.

(** C2, amended.  For two live schemas of one type, the other one outside a
    withMutation window and with registrable tests, [concat] returns a
    schema whose default is the other's if the other set one
    ([hasDefault]), be it [undefined]; otherwise it is the default the
    other holds, if that is not [undefined] (the copy of the other in place
    of the other itself), and the receiver's default only when the other
    holds none. *)
Theorem concat_default h a b sa sb qa qb ta tb :
  schema_at h a sa qa ta → schema_at h b sb qb tb →
  type sb = type sa →
  _mutate sb = false → Forall registrable qb →
  ∃ n h' sn,
    concat (Some b) a h = Ok (n, h') ∧
    schemas h' !! n = Some sn ∧
    default (spec sn) =
      if hasDefault (spec sb) then default (spec sb)
      else if bool_decide (default (spec sb) = VUndef)
           then default (spec sa)
           else clone_val b n (default (spec sb)).
Proof.
  intros Hata Hatb Hty Hmb Hreg.
  destruct (decide (a = b)) as [->|Hne].
  - pose proof Hata as (Ha & _). pose proof Hatb as (Hb & _).
    assert (sa = sb) as -> by congruence.
    exists b, h, sb. split.
    { unfold concat. by rewrite bool_decide_true. }
    split; [done|]. destruct (hasDefault (spec sb)); [done|].
    case_bool_decide; [done|].
    destruct (default (spec sb)); try done. simpl.
    case_bool_decide; congruence.
  - destruct (concat_spec h a b sa sb qa qb ta tb Hata Hatb Hne
                (or_introl Hty) Hmb Hreg)
      as (n & h' & sn & E & _ & Hn & Hd & _).
    exists n, h', sn. split; [done|]. split; [done|].
    rewrite Hd. destruct (hasDefault (spec sb)); [done|].
    unfold merge_val. case_bool_decide as Hu.
    + rewrite bool_decide_true; [done|].
      destruct (default (spec sb)); try done. simpl in Hu.
      by case_bool_decide.
    + rewrite bool_decide_false; [done|].
      intros Hu'. apply Hu. by rewrite Hu'.
Qed.

(** [A.default(1).concat(B)]: default [1] when [B] set none, default [2] when
    [B] is [B.default(2)], and [undefined] when [B] is
    [B.default(undefined)]. *)
Lemma concat_default_witness :
  default_pair empty_heap = Ok (4, default_pair_heap) ∧
  (∃ n h' sn,
     concat (Some 2) 1 default_pair_heap = Ok (n, h') ∧
     schemas h' !! n = Some sn ∧ default (spec sn) = VNum 1) ∧
  (∃ n h' sn,
     concat (Some 3) 1 default_pair_heap = Ok (n, h') ∧
     schemas h' !! n = Some sn ∧ default (spec sn) = VNum 2) ∧
  (∃ n h' sn,
     concat (Some 4) 1 default_pair_heap = Ok (n, h') ∧
     schemas h' !! n = Some sn ∧ default (spec sn) = VUndef).
Proof.
  split; [vm_compute; reflexivity|]. split; [|split].
  - refine (concat_default default_pair_heap 1 2
              (schema_in default_pair_heap 1) (schema_in default_pair_heap 2)
              [] [] ∅ ∅ _ _ _ _ _).
    + split; [reflexivity|]. split; reflexivity.
    + split; [reflexivity|]. split; reflexivity.
    + reflexivity.
    + reflexivity.
    + constructor.
  - refine (concat_default default_pair_heap 1 3
              (schema_in default_pair_heap 1) (schema_in default_pair_heap 3)
              [] [] ∅ ∅ _ _ _ _ _).
    + split; [reflexivity|]. split; reflexivity.
    + split; [reflexivity|]. split; reflexivity.
    + reflexivity.
    + reflexivity.
    + constructor.
  - refine (concat_default default_pair_heap 1 4
              (schema_in default_pair_heap 1) (schema_in default_pair_heap 4)
              [] [] ∅ ∅ _ _ _ _ _).
    + split; [reflexivity|]. split; reflexivity.
    + split; [reflexivity|]. split; reflexivity.
    + reflexivity.
    + reflexivity.
    + constructor.
Defined.

(** C3, at [A = mixed()] and [B = mixed().test({name: "x", exclusive: true,
    test: f1})]: [A.concat(B)] returns a new schema and leaves [A]'s [tests]
    array as it was, but the table of the result is [A]'s own table, and
    registering [B]'s test writes ["x"] into it: [A]'s exclusivity table is
    empty before the call and holds ["x" := true] after it. *)
Theorem concat_writes_receiver_table :
  exclusive_pair empty_heap = Ok (2, exclusive_pair_heap) ∧
  queue exclusive_pair_heap 0 = Some [] ∧
  exclusive_table exclusive_pair_heap 0 = Some ∅ ∧
  concat (Some 2) 0 exclusive_pair_heap = Ok (3, exclusive_concat_heap) ∧
  schemas exclusive_concat_heap !! 0 = schemas exclusive_pair_heap !! 0 ∧
  queue exclusive_concat_heap 0 = Some [] ∧
  exclusive_table exclusive_concat_heap 0 = Some {["x" := true]} ∧
  exclusive_table exclusive_concat_heap 0 ≠
    exclusive_table exclusive_pair_heap 0.
Proof.
  do 7 (split; [vm_compute; reflexivity|]).
  vm_compute. discriminate.
Qed.

(** ** The theorems at sample schemas *)

(** The three policies on the schema that already holds the exclusive test
    ["x"]: replacement by [f2], stacking of two tests ["y"], and one copy
    of ["x"] running [f1] after registering it again. *)
Lemma test_coexistence_witness :
  (∃ l' h' q',
     test (user_config "x" true 2) 2 exclusive_pair_heap = Ok (l', h') ∧
     queue h' l' = Some q' ∧
     named (Some "x") q' =
       [createValidation (normalize (user_config "x" true 2))] ∧
     test_fn (OPTIONS (createValidation (normalize (user_config "x" true 2))))
       = Some (UserFn 2)) ∧
  (∃ l1 h1 l2 h2 pre,
     test (user_config "y" false 1) 2 exclusive_pair_heap = Ok (l1, h1) ∧
     test (user_config "y" false 2) l1 h1 = Ok (l2, h2) ∧
     queue h2 l2 =
       Some (pre ++ [createValidation (normalize (user_config "y" false 1));
                     createValidation (normalize (user_config "y" false 2))])) ∧
  (∃ l' h' q',
     test (user_config "x" false 1) 2 exclusive_pair_heap = Ok (l', h') ∧
     queue h' l' = Some q' ∧
     copies (Some "x") (Some (UserFn 1)) q' =
       [createValidation (normalize (user_config "x" false 1))]).
Proof.
  assert (schema_at exclusive_pair_heap 2 (schema_in exclusive_pair_heap 2)
            [createValidation (normalize (user_config "x" true 1))]
            {["x" := true]}) as Hat.
  { split; [reflexivity|]. split; vm_compute; reflexivity. }
  destruct (test_coexistence _ _ _ _ _ Hat) as (A & B & D).
  split; [|split].
  - exact (A (user_config "x" true 2) (UserFn 2) eq_refl eq_refl
             (or_introl eq_refl)).
  - refine (B (user_config "y" false 1) (user_config "y" false 2)
              (UserFn 1) (UserFn 2) eq_refl eq_refl _ eq_refl eq_refl eq_refl).
    discriminate.
  - refine (D (user_config "x" false 1) (UserFn 1) eq_refl _).
    simpl. discriminate.
Defined.

(** [clone] of a schema outside a window that holds another schema in its
    [_meta]. *)
Lemma clone_correct_witness :
  ∃ l' h' s',
    clone 1 nested_heap = Ok (l', h') ∧ l' ≠ 1 ∧
    schema_at h' l' s' [] ∅ ∧
    ("child", VSchema 0) ∈ _meta s' ∧
    ∀ ts, ∃ h'',
      put_array (tests s') ts h' = Ok (tt, h'') ∧
      queue h'' l' = Some ts ∧ queue h'' 1 = Some [].
Proof.
  assert (schema_at nested_heap 1 parent_schema [] ∅) as Hat.
  { split; [reflexivity|]. split; reflexivity. }
  destruct (clone_correct _ _ _ _ _ Hat) as (_ & Hcopy).
  destruct (Hcopy eq_refl)
    as (l' & h' & s' & E & Hne & _ & _ & Hat' & _ & _ & Hnested & Hrest).
  exists l', h', s'. split; [exact E|]. split; [exact Hne|].
  split; [exact Hat'|]. split.
  - refine (proj1 (Hnested 0 _) "child" _).
    + discriminate.
    + apply list_elem_of_here.
  - apply Hrest.
Defined.


(** [cast] on the number schema: a string is rejected, a number returned,
    and with [assert: false] the string is returned. *)
Lemma cast_correct_witness :
  cast number_kind 0 (VStr "hello") no_options 1 number_heap
    = Throw (CastTypeError "field" "number" (VStr "hello") (VStr "hello")) ∧
  cast number_kind 0 (VNum 5) no_options 1 number_heap
    = Ok (VNum 5, number_heap) ∧
  cast number_kind 0 (VStr "hello")
    (mkOptions (Some false) None [] [] None None None) 1 number_heap
    = Ok (VStr "hello", number_heap) ∧
  ∃ result,
    _cast number_kind number_schema (VStr "hello") number_heap
      = Ok (result, number_heap).
Proof.
  assert (∀ v o, resolve number_kind 0 v o 1 number_heap
                 = Ok (1, number_heap)) as Hr by reflexivity.
  split; [|split; [|split]].
  - refine (proj1 (proj1 (cast_correct number_kind 0 (VStr "hello")
                            no_options 1 number_heap 1 number_heap
                            number_schema (Hr _ _) eq_refl)
                     (VStr "hello") number_heap eq_refl)
              _ _ eq_refl).
    + discriminate.
    + discriminate.
  - refine (proj1 (proj2 (proj1 (cast_correct number_kind 0 (VNum 5)
                                   no_options 1 number_heap 1 number_heap
                                   number_schema (Hr _ _) eq_refl)
                            (VNum 5) number_heap eq_refl))
              _ _ eq_refl).
    + discriminate.
    + discriminate.
  - exact (proj2 (proj2 (proj1 (cast_correct number_kind 0 (VStr "hello")
                                  (mkOptions (Some false) None [] [] None
                                     None None)
                                  1 number_heap 1 number_heap number_schema
                                  (Hr _ _) eq_refl)
                           (VStr "hello") number_heap eq_refl))
             eq_refl).
  - refine (proj2 (proj2 (cast_correct number_kind 0 (VStr "hello")
                            no_options 1 number_heap 1 number_heap
                            number_schema (Hr _ _) eq_refl)) _).
    intros d. discriminate.
Defined.

(** [cast(undefined)] on the number schema whose default is ["abc"]. *)
Lemma cast_undefined_unchecked_witness :
  isType number_kind number_schema (VStr "abc") = false ∧
  cast number_kind 0 VUndef no_options 1 number_heap
    = Ok (VStr "abc", number_heap) ∧
  ∃ result,
    cast number_kind 0 VUndef no_options 1 number_heap
      = Ok (result, number_heap).
Proof.
  destruct (proj2 (cast_undefined_unchecked number_kind 0 no_options 1
                     number_heap)
              1 number_heap number_schema eq_refl eq_refl)
    as (Hrun & _ & _ & Hret).
  split; [reflexivity|]. split.
  - exact (eq_trans Hrun eq_refl).
  - apply Hret. intros d. discriminate.
Defined.

(** [oneOf] with a literal and a reference, and [notOneOf([2])] on top of
    [oneOf([1, 2, 3])]. *)
Lemma oneOf_notOneOf_witness :
  (∃ l' h' s',
     oneOf [VNum 1; VRef "sibling"] (LocaleMsg "oneOf") 0 mixed_heap
       = Ok (l', h') ∧
     schemas h' !! l' = Some s' ∧
     member (VRef "sibling") (_whitelist s') = true ∧
     member (VRef "sibling") (_blacklist s') = false) ∧
  (∃ l' h' s',
     notOneOf [VNum 2] (LocaleMsg "notOneOf") 2 enum_heap = Ok (l', h') ∧
     schemas h' !! l' = Some s' ∧
     member (VNum 2) (_blacklist s') = true ∧
     member (VNum 2) (_whitelist s') = false).
Proof.
  split.
  - destruct (oneOf_notOneOf mixed_heap 0 mixed_schema [] ∅
                [VNum 1; VRef "sibling"] (LocaleMsg "oneOf")
                (conj eq_refl (conj eq_refl eq_refl)))
      as ((l' & h' & s' & E & Hs & Hall) & _).
    exists l', h', s'. split; [exact E|]. split; [exact Hs|].
    apply Hall. apply list_elem_of_further, list_elem_of_here.
  - destruct (oneOf_notOneOf enum_heap 2 enum_schema [] ∅
                [VNum 2] (LocaleMsg "notOneOf")
                (conj eq_refl (conj eq_refl eq_refl)))
      as (_ & (l' & h' & s' & E & Hs & Hall) & _).
    exists l', h', s'. split; [exact E|]. split; [exact Hs|].
    apply Hall. apply list_elem_of_here.
Defined.

(** Validation of [2] against [mixed().oneOf([1, 2, 3]).notOneOf([2])]. *)
Lemma validate_order_witness :
  ∃ r,
    _validate base (VNum 2) no_options 2 enum_heap = Ok (r, enum_heap) ∧
    ran r `prefix_of` initialTests enum_schema ∧
    err r ≠ [] ∧
    ∃ pre t post,
      initialTests enum_schema = pre ++ t :: post ∧
      ran r = pre ++ [t] ∧ err r = [t].
Proof.
  destruct (validate_order base (VNum 2) no_options enum_heap 2 enum_schema []
              eq_refl eq_refl) as (Hrun & _ & _).
  destruct (Hrun (VNum 2) enum_heap eq_refl) as (r & E & _ & _ & Hfail).
  destruct Hfail as (Hp & _ & Hne & Hab).
  { apply Exists_cons_tl, Exists_cons_hd. reflexivity. }
  destruct (Hab eq_refl) as (pre & t & post & Hi & _ & _ & Hr & He).
  exists r. split; [exact E|]. split; [exact Hp|]. split; [exact Hne|].
  exists pre, t, post. split; [exact Hi|]. split; [exact Hr|exact He].
Defined.

(* ================================================================== *)
(** * Further properties *)

(** ** RefSet *)

Lemma member_add_iff v w s :
  member v (RefSet.add w s) = true ↔ v = w ∨ member v s = true.
Proof.
  destruct v, w; simpl; rewrite !bool_decide_eq_true;
    rewrite ?set_add_elem, ?map_set_fst; naive_solver.
Qed.

Lemma member_delete_iff v w s :
  member v (RefSet.delete w s) = true ↔ v ≠ w ∧ member v s = true.
Proof.
  destruct v, w; simpl; rewrite !bool_decide_eq_true;
    rewrite ?set_delete_elem, ?map_delete_fst; naive_solver.
Qed.

Lemma member_fold_add v ws :
  ∀ s, member v (foldl (λ n w, RefSet.add w n) s ws) = true ↔
       v ∈ ws ∨ member v s = true.
Proof.
  induction ws as [|w ws IH]; intros s; simpl.
  - rewrite elem_of_nil. naive_solver.
  - rewrite IH, member_add_iff, elem_of_cons. naive_solver.
Qed.

Lemma member_fold_delete v ws :
  ∀ s, member v (foldl (λ n w, RefSet.delete w n) s ws) = true ↔
       (v ∉ ws) ∧ member v s = true.
Proof.
  induction ws as [|w ws IH]; intros s; simpl.
  - rewrite elem_of_nil. naive_solver.
  - rewrite IH, member_delete_iff, elem_of_cons. naive_solver.
Qed.

Lemma foldl_snd {A} (f : A → jsval → A) (a : A) (m : list (string * jsval)) :
  foldl (λ n kv, f n kv.2) a m = foldl f a (map snd m).
Proof. revert a. induction m as [|kv m IH]; intros a; simpl; [done|]. apply IH. Qed.

(** In a well-kept set, membership is being among the literals or among the
    stored references. *)
Lemma member_wf v s :
  refset_wf s →
  (member v s = true ↔ v ∈ RefSet.list s ∨ v ∈ map snd (RefSet.refs s)).
Proof.
  intros (_ & _ & Hlit & Hrefs).
  rewrite Forall_forall in Hlit. rewrite Forall_forall in Hrefs.
  assert (∀ k, VRef k ∈ map snd (RefSet.refs s) ↔
               k ∈ map fst (RefSet.refs s)) as Hkey.
  { intros k. rewrite !list_elem_of_fmap. split.
    - intros ([k' v'] & E & Hin). simpl in E. subst v'.
      specialize (Hrefs _ Hin). simpl in Hrefs. simplify_eq.
      by exists (k', VRef k').
    - intros ([k' v'] & E & Hin). simpl in E. subst k'.
      specialize (Hrefs _ Hin). simpl in Hrefs. subst v'.
      by exists (k, VRef k). }
  assert (∀ w, isRef w = false → w ∉ map snd (RefSet.refs s)) as Hnolit.
  { intros w Hw H. apply list_elem_of_fmap in H as ([k' v'] & E & Hin).
    simpl in E. subst v'.
    specialize (Hrefs _ Hin). simpl in Hrefs. subst w. done. }
  destruct v; simpl; rewrite bool_decide_eq_true;
    try (split; [by left|intros [?|H]; [done|by apply Hnolit in H]]).
  rewrite Hkey. split; [by right|]. intros [H|H]; [|done].
  by apply Hlit in H.
Qed.

Lemma member_merge_iff v s newItems removeItems :
  refset_wf newItems → refset_wf removeItems →
  (member v (RefSet.merge newItems removeItems s) = true ↔
   member v removeItems = false ∧
   (member v newItems = true ∨ member v s = true)).
Proof.
  intros Hn Hr. unfold RefSet.merge, RefSet.clone.
  rewrite (foldl_snd (λ n w, RefSet.delete w n)).
  rewrite (foldl_snd (λ n w, RefSet.add w n)).
  rewrite !member_fold_delete, !member_fold_add.
  pose proof (member_wf v newItems Hn) as En.
  pose proof (member_wf v removeItems Hr) as Er.
  assert (member v {| RefSet.list := RefSet.list s;
                      RefSet.refs := RefSet.refs s |} = member v s) as ->
    by by destruct s.
  destruct (member v removeItems) eqn:Em; naive_solver.
Qed.

Lemma map_set_keys k v m :
  map fst (RefSet.map_set k v m) =
    if bool_decide (k ∈ map fst m) then map fst m else map fst m ++ [k].
Proof.
  induction m as [|[k0 v0] m IH]; simpl; [done|].
  destruct (bool_decide (k0 = k)) eqn:E; simpl.
  - apply bool_decide_eq_true in E. subst k0.
    rewrite bool_decide_true; [done|apply list_elem_of_here].
  - apply bool_decide_eq_false in E. rewrite IH.
    destruct (bool_decide (k ∈ map fst m)) eqn:E2.
    + apply bool_decide_eq_true in E2.
      rewrite bool_decide_true; [done|by apply list_elem_of_further].
    + apply bool_decide_eq_false in E2.
      rewrite bool_decide_false; [done|].
      intros [?|?]%elem_of_cons; congruence.
Qed.

Lemma map_delete_keys k m :
  map fst (RefSet.map_delete k m) = filter (λ k', k' ≠ k) (map fst m).
Proof.
  unfold RefSet.map_delete.
  induction m as [|[k0 v0] m IH]; simpl; [done|].
  rewrite !filter_cons. simpl. destruct (decide (k0 ≠ k)); simpl; by rewrite IH.
Qed.

Lemma length_filter_ne {A} `{EqDecision A} (x : A) (l : list A) :
  NoDup l →
  length (filter (λ y, y ≠ x) l) =
    if bool_decide (x ∈ l) then length l - 1 else length l.
Proof.
  induction 1 as [|y l Hy Hnd IH]; simpl; [done|].
  rewrite filter_cons. destruct (decide (y ≠ x)) as [Hne|Heq]; simpl.
  - rewrite IH. destruct (bool_decide (x ∈ l)) eqn:E.
    + apply bool_decide_eq_true in E.
      rewrite bool_decide_true by by apply list_elem_of_further.
      destruct l; [by apply elem_of_nil in E|simpl; lia].
    + apply bool_decide_eq_false in E.
      rewrite bool_decide_false; [done|].
      intros [?|?]%elem_of_cons; congruence.
  - apply dec_stable in Heq. subst y.
    rewrite bool_decide_true by apply list_elem_of_here.
    rewrite IH. rewrite bool_decide_false by done. simpl. lia.
Qed.

Lemma Forall_filter_keep {A} (P Q : A → Prop) `{∀ x, Decision (Q x)}
    (l : list A) :
  Forall P l → Forall P (filter Q l).
Proof.
  rewrite !Forall_forall. intros HP x Hx.
  apply list_elem_of_filter in Hx as [_ Hx]. by apply HP.
Qed.

(** X1.  The class keeps its sets well: the empty set has no duplicates and
    files every reference under its own key, and [add], [delete] and [merge]
    keep it so. *)
Theorem refset_wf_kept s :
  refset_wf s →
  refset_wf RefSet.empty ∧
  (∀ v, refset_wf (RefSet.add v s) ∧ refset_wf (RefSet.delete v s)) ∧
  (∀ newItems removeItems,
     refset_wf (RefSet.merge newItems removeItems s)).
Proof.
  assert (∀ s v, refset_wf s → refset_wf (RefSet.add v s)) as Hadd.
  { intros s0 v (N1 & N2 & F1 & F2).
    assert (isRef v = false →
            refset_wf (RefSet.mk (RefSet.set_add v (RefSet.list s0))
                         (RefSet.refs s0))) as Hlit.
    { intros Hv. repeat split; simpl; try done.
      - unfold RefSet.set_add. case_bool_decide; [done|].
        apply NoDup_app. split; [done|]. split; [|apply NoDup_singleton].
        intros x Hx ->%list_elem_of_singleton. done.
      - unfold RefSet.set_add. case_bool_decide; [done|].
        apply Forall_app. split; [done|]. by constructor. }
    destruct v; try (by apply Hlit).
    repeat split; simpl; try done.
    - rewrite map_set_keys. case_bool_decide; [done|].
      apply NoDup_app. split; [done|]. split; [|apply NoDup_singleton].
      intros x Hx ->%list_elem_of_singleton. done.
    - clear N2 Hlit. induction F2 as [|[k0 v0] m Hk Hm IH]; simpl.
      + by constructor.
      + case_bool_decide; constructor; simpl; done. }
  assert (∀ s v, refset_wf s → refset_wf (RefSet.delete v s)) as Hdel.
  { intros s0 v (N1 & N2 & F1 & F2).
    assert (refset_wf (RefSet.mk (RefSet.set_delete v (RefSet.list s0))
                         (RefSet.refs s0))) as Hlit.
    { repeat split; simpl; try done.
      - by apply NoDup_filter.
      - by apply Forall_filter_keep. }
    destruct v; try (by apply Hlit).
    repeat split; simpl; try done.
    - rewrite map_delete_keys. by apply NoDup_filter.
    - by apply Forall_filter_keep. }
  intros Hs. split; [|split].
  - repeat split; simpl; constructor.
  - intros v. split; [by apply Hadd|by apply Hdel].
  - intros newItems removeItems. unfold RefSet.merge, RefSet.clone.
    assert (∀ ws s0, refset_wf s0 →
              refset_wf (foldl (λ n w, RefSet.add w n) s0 ws)) as Hfa.
    { induction ws as [|w ws IH]; intros s0 H0; simpl; [done|].
      by apply IH, Hadd. }
    assert (∀ ws s0, refset_wf s0 →
              refset_wf (foldl (λ n w, RefSet.delete w n) s0 ws)) as Hfd.
    { induction ws as [|w ws IH]; intros s0 H0; simpl; [done|].
      by apply IH, Hdel. }
    rewrite (foldl_snd (λ n w, RefSet.delete w n)).
    rewrite (foldl_snd (λ n w, RefSet.add w n)).
    apply Hfd, Hfd, Hfa, Hfa. by destruct s.
Qed.

(** X2.  [size] counts every value once: adding a value that is already in
    the set leaves the size, adding a new one raises it by one, and deleting
    lowers it by one exactly when the value was there. *)
Theorem refset_size s v :
  refset_wf s →
  RefSet.size (RefSet.add v s) =
    (if member v s then RefSet.size s else S (RefSet.size s)) ∧
  RefSet.size (RefSet.delete v s) =
    (if member v s then RefSet.size s - 1 else RefSet.size s).
Proof.
  intros (N1 & N2 & _ & _). unfold RefSet.size.
  assert (length (RefSet.set_add v (RefSet.list s)) =
          if bool_decide (v ∈ RefSet.list s) then length (RefSet.list s)
          else S (length (RefSet.list s))) as Hla.
  { unfold RefSet.set_add. case_bool_decide; [done|].
    rewrite length_app. simpl. lia. }
  assert (∀ k w, length (RefSet.map_set k w (RefSet.refs s)) =
          if bool_decide (k ∈ map fst (RefSet.refs s))
          then length (RefSet.refs s) else S (length (RefSet.refs s))) as Hma.
  { intros k w.
    rewrite <- (List.length_map fst (RefSet.map_set k w (RefSet.refs s))).
    rewrite map_set_keys.
    destruct (bool_decide (k ∈ map fst (RefSet.refs s))).
    - by rewrite List.length_map.
    - rewrite length_app, List.length_map. simpl. lia. }
  assert (∀ k, length (RefSet.map_delete k (RefSet.refs s)) =
          if bool_decide (k ∈ map fst (RefSet.refs s))
          then length (RefSet.refs s) - 1 else length (RefSet.refs s)) as Hmd.
  { intros k.
    rewrite <- (List.length_map fst (RefSet.map_delete k (RefSet.refs s))).
    rewrite map_delete_keys, length_filter_ne by done.
    by rewrite List.length_map. }
  pose proof (length_filter_ne v (RefSet.list s) N1) as Hld.
  destruct v; simpl; unfold RefSet.set_delete;
    rewrite ?Hla, ?Hma, ?Hmd, ?Hld;
    repeat case_bool_decide; split; try lia.
  all: repeat match goal with
       | H : _ ∈ map fst ?l |- _ =>
           assert (0 < length l)
             by (destruct l; [by apply elem_of_nil in H|simpl; lia]);
           clear H
       | H : _ ∈ ?l |- _ =>
           assert (0 < length l)
             by (destruct l; [by apply elem_of_nil in H|simpl; lia]);
           clear H
       end; lia.
Qed.

(** X3.  [merge(newItems, removeItems)] gives the removals the last word: a
    value is in the result exactly when it is not in [removeItems] and is in
    [newItems] or in the set itself; so a value in both [newItems] and
    [removeItems] is not in the result. *)
Theorem refset_merge_member v s newItems removeItems :
  refset_wf newItems → refset_wf removeItems →
  (member v (RefSet.merge newItems removeItems s) = true ↔
   member v removeItems = false ∧
   (member v newItems = true ∨ member v s = true)) ∧
  (member v removeItems = true →
   member v (RefSet.merge newItems removeItems s) = false).
Proof.
  intros Hn Hr.
  pose proof (member_merge_iff v s newItems removeItems Hn Hr) as H.
  split; [exact H|]. intros Hv.
  destruct (member v (RefSet.merge newItems removeItems s)); [|done].
  destruct H as [H _]. destruct (H eq_refl) as [H' _]. congruence.
Qed.

(** X4.  [has] on a value that is not a reference: after [add] the value is
    found, whatever the references resolve to; after [delete] it is found
    exactly when some stored reference resolves to it. *)
Theorem refset_has_literal v resolve s :
  isRef v = false →
  RefSet.has v resolve (RefSet.add v s) = true ∧
  RefSet.has v resolve (RefSet.delete v s) =
    existsb (λ kv, bool_decide (resolve kv.2 = v)) (RefSet.refs s).
Proof.
  intros Hv. unfold RefSet.has. split.
  - assert (v ∈ RefSet.list (RefSet.add v s)) as Hin.
    { destruct v; try done; simpl; apply set_add_elem; by left. }
    by rewrite bool_decide_true.
  - assert (v ∉ RefSet.list (RefSet.delete v s)) as Hout.
    { destruct v; try done; simpl; rewrite set_delete_elem; naive_solver. }
    rewrite bool_decide_false by done.
    by destruct v.
Qed.

(** ** test, once more *)

(** X5.  The two usage errors of [test]: without a test function it throws
    before touching the schema; with [exclusive] set and a name that is absent
    or empty it throws the other [TypeError]. *)
Theorem test_usage_errors h l s q tab opts :
  schema_at h l s q tab →
  (test_fn opts = None →
   test opts l h = Throw (TypeError "`test` is a required parameters")) ∧
  (is_Some (test_fn opts) → exclusive opts = true →
   truthy_name (name opts) = false →
   test opts l h =
     Throw (TypeError
              "Exclusive tests must provide a unique `name` identifying the test")).
Proof.
  intros Hat. pose proof Hat as (Hs & Hq & Ht). split.
  - intros Hf. unfold test. fold (normalize opts).
    by rewrite normalize_test_fn, Hf.
  - intros [f Hf] Hex Hn. unfold test. fold (normalize opts).
    rewrite normalize_test_fn, Hf.
    destruct (_mutate s) eqn:Hm.
    + unfold bind at 1. rewrite (clone_in_window h l s Hs Hm).
      unfold bind at 1. unfold get_schema at 1. rewrite Hs.
      unfold bind at 1. unfold get_table at 1. rewrite Ht.
      by rewrite normalize_exclusive, normalize_name, Hex, Hn.
    + unfold bind at 1. rewrite (clone_copy h l s q tab Hat Hm).
      unfold bind at 1. unfold get_schema at 1. simpl. rewrite lookup_snoc.
      unfold bind at 1. unfold get_table at 1. simpl. rewrite lookup_snoc.
      by rewrite normalize_exclusive, normalize_name, Hex, Hn.
Qed.

(** X6.  Outside a withMutation window [test] leaves the receiver alone: it
    returns an object the store did not hold, and the receiver's schema
    object, its queue and its exclusivity table are what they were. *)
Theorem test_leaves_receiver h l s q tab opts :
  schema_at h l s q tab → _mutate s = false →
  is_Some (test_fn opts) →
  (exclusive opts = true → truthy_name (name opts) = true) →
  ∃ l' h',
    test opts l h = Ok (l', h') ∧
    schemas h !! l' = None ∧
    schemas h' !! l = Some s ∧
    queue h' l = Some q ∧
    exclusive_table h' l = Some tab ∧
    extends h h'.
Proof.
  intros Hat Hm [f Hf] Hex. pose proof Hat as (Hs & Hq & Ht).
  eexists _, _. split; [by eapply test_on_copy|].
  split; [by apply lookup_ge_None_2|].
  unfold queue, exclusive_table. simpl.
  rewrite (lookup_app_l_Some _ _ _ _ Hs).
  split; [done|]. split; [by apply lookup_app_l_Some|].
  split; [by apply lookup_app_l_Some|].
  repeat split; simpl; intros; by apply lookup_app_l_Some.
Qed.

Lemma named_filter_comm n (p : Test → bool) q :
  named n (List.filter p q) = List.filter p (named n q).
Proof.
  unfold named. induction q as [|t q IH]; simpl; [done|].
  destruct (p t) eqn:Hp, (bool_decide (name (OPTIONS t) = n)) eqn:Hn; simpl;
    rewrite ?Hp, ?Hn, IH; done.
Qed.

Lemma named_queue_after_other n opts tab q :
  n ≠ name opts →
  named n (queue_after opts tab q) = named n q.
Proof.
  intros Hne. unfold queue_after. rewrite named_app, named_filter_comm.
  simpl. rewrite normalize_name.
  rewrite (bool_decide_false (name opts = n)) by congruence.
  rewrite app_nil_r.
  unfold named. induction q as [|t q IH]; simpl; [done|].
  destruct (bool_decide (name (OPTIONS t) = n)) eqn:E; simpl; [|done].
  apply bool_decide_eq_true in E.
  unfold keep_test at 1. rewrite normalize_name.
  rewrite (bool_decide_false (name (OPTIONS t) = name opts)) by congruence.
  by rewrite IH.
Qed.

(** X7.  A registration touches only the tests of its own name: under every
    other name the result holds the tests the receiver held, in their
    order. *)
Theorem test_keeps_other_names h l s q tab opts n :
  schema_at h l s q tab →
  is_Some (test_fn opts) →
  (exclusive opts = true → truthy_name (name opts) = true) →
  n ≠ name opts →
  ∃ l' h' q',
    test opts l h = Ok (l', h') ∧ queue h' l' = Some q' ∧
    named n q' = named n q.
Proof.
  intros Hat [f Hf] Hex Hne.
  destruct (test_spec h l s q tab opts f Hat Hf Hex)
    as (l' & h' & s' & E & (Hs' & Hq' & _) & _).
  exists l', h', (queue_after opts tab q). split; [done|].
  split; [unfold queue; by rewrite Hs'|].
  by apply named_queue_after_other.
Qed.

Lemma named_queue_after_exclusive opts tab q :
  isExclusive_of opts tab = true →
  named (name opts) (queue_after opts tab q) =
    [createValidation (normalize opts)].
Proof.
  intros Hx. unfold queue_after. rewrite Hx, named_app.
  rewrite <- (normalize_name opts) at 1.
  rewrite named_filter_exclusive. simpl.
  rewrite normalize_name. by rewrite bool_decide_true.
Qed.

Lemma records_other p k (t : gmap string bool) :
  k ≠ "__proto__" → records p k t = true.
Proof.
  intros Hk. unfold records. rewrite (bool_decide_false _ Hk).
  by rewrite andb_false_r.
Qed.

(** X8.  The exclusivity of a name follows its latest registration, as the
    comment above [test] says, for every name but ["__proto__"].  After an
    exclusive registration the next one under the name replaces it even when
    it is not exclusive; and once a non-exclusive test has replaced the tests
    of a flagged name, a further non-exclusive test with another function is
    stacked on it. *)
Theorem test_flag_follows_latest h l s q tab o1 o2 f1 f2 :
  schema_at h l s q tab →
  test_fn o1 = Some f1 → test_fn o2 = Some f2 →
  name o1 = name o2 → truthy_name (name o1) = true →
  name_key (name o1) ≠ "__proto__" →
  exclusive o2 = false →
  (exclusive o1 = true →
   ∃ l1 h1 l2 h2 q2,
     test o1 l h = Ok (l1, h1) ∧ test o2 l1 h1 = Ok (l2, h2) ∧
     queue h2 l2 = Some q2 ∧
     named (name o1) q2 = [createValidation (normalize o2)]) ∧
  (exclusive o1 = false → tab !! name_key (name o1) = Some true → f1 ≠ f2 →
   ∃ l1 h1 l2 h2 q2,
     test o1 l h = Ok (l1, h1) ∧ test o2 l1 h1 = Ok (l2, h2) ∧
     queue h2 l2 = Some q2 ∧
     named (name o1) q2 =
       [createValidation (normalize o1); createValidation (normalize o2)]).
Proof.
  intros Hat Hf1 Hf2 Hname Hn Hproto Hx2.
  destruct (test_spec h l s q tab o1 f1 Hat Hf1 (λ _, Hn))
    as (l1 & h1 & s1 & E1 & Hat1 & _).
  destruct (test_spec h1 l1 s1 _ _ o2 f2 Hat1 Hf2) as
    (l2 & h2 & s2 & E2 & (Hs2 & Hq2 & _) & _); [by rewrite Hx2|].
  set (tab1 := table_after (writes_plain h s) o1 tab) in *.
  assert (tab1 !! name_key (name o2) = Some (exclusive o1)) as Hflag.
  { rewrite <- Hname. unfold tab1. rewrite table_after_lookup by done.
    by rewrite records_other. }
  split.
  - intros Hx1. eexists l1, h1, l2, h2, _. split; [done|]. split; [done|].
    split; [unfold queue; by rewrite Hs2|].
    rewrite Hname. apply named_queue_after_exclusive.
    unfold isExclusive_of. rewrite Hflag, Hx1, <- Hname, Hn.
    rewrite bool_decide_true by done. apply orb_true_r.
  - intros Hx1 Htab Hne. eexists l1, h1, l2, h2, _.
    split; [done|]. split; [done|].
    split; [unfold queue; by rewrite Hs2|].
    assert (isExclusive_of o2 tab1 = false) as Hnot.
    { unfold isExclusive_of. rewrite Hflag, Hx1, Hx2, <- Hname, Hn. done. }
    assert (named (name o1) (queue_after o1 tab q)
            = [createValidation (normalize o1)]) as Hq1.
    { apply named_queue_after_exclusive. unfold isExclusive_of.
      rewrite Hn, Htab. rewrite bool_decide_true by done. apply orb_true_r. }
    unfold queue_after at 1. rewrite Hnot, named_app, named_filter_comm, Hq1.
    simpl. unfold keep_test. simpl.
    rewrite !normalize_name, !normalize_test_fn, Hname.
    rewrite !bool_decide_true by done.
    rewrite bool_decide_false; [done|]. rewrite Hf1, Hf2. congruence.
Qed.

(** The name ["__proto__"] on a schema outside a withMutation window, whose
    table holds no such entry: the table of the copy inherits from
    [Object.prototype], the write of the flag goes to the inherited setter
    and is lost, and the name is never flagged.  After an exclusive
    registration a non-exclusive one with another function is stacked on it
    instead of replacing it. *)
Theorem test_proto_not_flagged h l s q tab o1 o2 f1 f2 :
  schema_at h l s q tab → _mutate s = false →
  test_fn o1 = Some f1 → test_fn o2 = Some f2 →
  name o1 = Some "__proto__" → name o2 = Some "__proto__" →
  tab !! "__proto__" = None →
  exclusive o1 = true → exclusive o2 = false → f1 ≠ f2 →
  ∃ l1 h1 l2 h2 q2,
    test o1 l h = Ok (l1, h1) ∧ test o2 l1 h1 = Ok (l2, h2) ∧
    queue h2 l2 = Some q2 ∧
    exclusive_table h2 l2 = Some tab ∧
    named (Some "__proto__") q2 =
      [createValidation (normalize o1); createValidation (normalize o2)].
Proof.
  intros Hat Hm Hf1 Hf2 Hn1 Hn2 Htab Hx1 Hx2 Hne.
  assert (truthy_name (name o1) = true) as Ht1 by by rewrite Hn1.
  assert (truthy_name (name o2) = true) as Ht2 by by rewrite Hn2.
  assert (∀ o, name o = Some "__proto__" → table_after true o tab = tab)
    as Hlost.
  { intros o Ho. unfold table_after, records. rewrite Ho. simpl.
    rewrite Htab. by rewrite !bool_decide_true by done. }
  destruct (test_spec h l s q tab o1 f1 Hat Hf1 (λ _, Ht1))
    as (l1 & h1 & s1 & E1 & Hat1 & Hp1 & _).
  unfold writes_plain in Hat1, Hp1. rewrite Hm in Hat1, Hp1.
  simpl in Hat1, Hp1. rewrite (Hlost o1 Hn1) in Hat1.
  destruct (test_spec h1 l1 s1 _ _ o2 f2 Hat1 Hf2) as
    (l2 & h2 & s2 & E2 & (Hs2 & Hq2 & Htab2) & _); [by rewrite Hx2|].
  assert (table_after (writes_plain h1 s1) o2 tab = tab) as Hlost2.
  { unfold writes_plain. rewrite Hp1, orb_true_r. by apply Hlost. }
  rewrite Hlost2 in Htab2.
  eexists l1, h1, l2, h2, _. split; [done|]. split; [done|].
  split; [unfold queue; by rewrite Hs2|].
  split; [unfold exclusive_table; by rewrite Hs2|].
  assert (isExclusive_of o2 tab = false) as Hnot.
  { unfold isExclusive_of. rewrite Hx2, Hn2. simpl. rewrite Htab.
    by rewrite bool_decide_false. }
  assert (named (Some "__proto__") (queue_after o1 tab q)
          = [createValidation (normalize o1)]) as Hq1.
  { rewrite <- Hn1. apply named_queue_after_exclusive. unfold isExclusive_of.
    by rewrite Hx1. }
  unfold queue_after at 1. rewrite Hnot, named_app.
  rewrite <- Hn2 at 1. rewrite named_filter_comm, Hn2, Hq1.
  simpl. unfold keep_test. simpl.
  rewrite !normalize_name, !normalize_test_fn, Hn1, Hn2.
  rewrite !bool_decide_true by done.
  rewrite bool_decide_false; [done|]. rewrite Hf1, Hf2. congruence.
Qed.

(** ** withMutation, required and notRequired *)

(** X9.  A registration run through [withMutation] works on the receiver
    itself: the call returns the receiver, which now carries the new queue
    and its table, written in place (with the flag of a truthy name, unless
    the name is ["__proto__"] on a table that inherits from
    [Object.prototype] and has no such entry, where the write is lost); its
    mutation flag is what it was before the call, so the window is closed
    again (or still open, when the call was nested in one); no other schema
    object is written and no array the store held. *)
Theorem withMutation_test h l s q tab opts :
  schema_at h l s q tab →
  is_Some (test_fn opts) →
  (exclusive opts = true → truthy_name (name opts) = true) →
  ∃ h' s',
    withMutation (test opts) l h = Ok (l, h') ∧
    schema_at h' l s' (queue_after opts tab q)
      (table_after (plain_at h (_exclusive s)) opts tab) ∧
    plain_at h' (_exclusive s') = plain_at h (_exclusive s) ∧
    _mutate s' = _mutate s ∧ spec s' = spec s ∧
    _exclusive s' = _exclusive s ∧
    (∀ l0, l0 ≠ l → schemas h' !! l0 = schemas h !! l0) ∧
    (∀ a q0, arrays h !! a = Some q0 → arrays h' !! a = Some q0).
Proof.
  intros Hat [f Hf] Hex. pose proof Hat as (Hs & Hq & Ht).
  assert (l < length (schemas h)) as Hl by by eapply lookup_lt_Some.
  assert (_exclusive s < length (tables h)) as He by by eapply lookup_lt_Some.
  unfold withMutation. unfold bind at 1, get_schema at 1. rewrite Hs.
  destruct (put_schema_writes h l s (set_mutate true s) Hs)
    as (h1 & E1 & Hs1 & F1 & A1 & T1 & P1).
  unfold bind at 1. rewrite E1.
  assert (schema_at h1 l (set_mutate true s) q tab) as Hat1.
  { split; [done|]. simpl. by rewrite A1, T1. }
  pose proof (test_in_window h1 l _ q tab opts f Hat1 eq_refl Hf Hex) as E2.
  unfold bind at 1. rewrite E2.
  match type of E2 with _ = Ok (_, ?x) => set (h2 := x) in * end.
  assert (schemas h2 !! l = Some (set_tests (length (arrays h1))
                                   (set_mutate true s))) as Hs2.
  { simpl. apply list_lookup_insert_eq. by eapply lookup_lt_Some. }
  destruct (modify_schema_writes h2 l _ (set_mutate (_mutate s)) Hs2)
    as (h3 & E3 & Hs3 & F3 & A3 & T3 & P3).
  unfold bind at 1. rewrite E3. unfold ret.
  assert (plain_at h1 (_exclusive s) = plain_at h (_exclusive s)) as Hpl
    by (unfold plain_at; by rewrite P1).
  eexists h3, _. split; [done|]. split.
  { split; [exact Hs3|]. simpl. rewrite A3, T3. simpl. split.
    - apply lookup_snoc.
    - rewrite Hpl, T1. by apply list_lookup_insert_eq. }
  split.
  { unfold plain_at. rewrite P3. simpl. by rewrite P1. }
  do 3 (split; [done|]). split.
  - intros l0 Hne. rewrite F3 by done. simpl.
    rewrite list_lookup_insert_ne by done. by apply F1.
  - intros a q0 H0. rewrite A3. simpl. apply lookup_app_l_Some.
    by rewrite A1.
Qed.

Lemma notRequired_run h l s q tab :
  schema_at h l s q tab →
  ∃ l' h' s',
    notRequired l h = Ok (l', h') ∧
    schema_at h' l' s'
      (List.filter
         (λ t, negb (bool_decide (name (OPTIONS t) = Some "required"))) q)
      tab ∧
    (_mutate s = false → extends h h' ∧ schemas h !! l' = None) ∧
    (_mutate s = true → l' = l).
Proof.
  intros Hat. pose proof Hat as (Hs & Hq & Ht).
  assert (l < length (schemas h)) as Hl by by eapply lookup_lt_Some.
  unfold notRequired. destruct (_mutate s) eqn:Hm.
  - unfold bind at 1. rewrite (clone_in_window h l s Hs Hm).
    eexists l, _, _. split; [mrun; reflexivity|].
    split; [|split; [done|done]].
    repeat split; simpl.
    + by apply list_lookup_insert_eq.
    + apply lookup_snoc.
    + done.
  - unfold bind at 1. rewrite (clone_copy h l s q tab Hat Hm).
    eexists _, _, _. split; [mrun; reflexivity|].
    split; [|split; [|done]].
    + repeat split; simpl.
      * apply lookup_snoc.
      * rewrite length_app. simpl.
        replace (length (arrays h) + 1) with (S (length (arrays h))) by lia.
        rewrite (lookup_app_r (arrays h ++ [q])) by (rewrite length_app; simpl; lia).
        rewrite length_app. simpl.
        by replace (S (length (arrays h)) - (length (arrays h) + 1)) with 0
          by lia.
      * apply lookup_snoc.
    + intros _. split; [|by apply lookup_ge_None_2].
      repeat split; simpl; intros.
      * by apply lookup_app_l_Some.
      * apply lookup_app_l_Some. by apply lookup_app_l_Some.
      * by apply lookup_app_l_Some.
Qed.

Lemma filter_other_names n q :
  named n q = [] →
  List.filter (λ t, negb (bool_decide (name (OPTIONS t) = n))) q = q.
Proof.
  unfold named. induction q as [|t q IH]; simpl; [done|].
  destruct (bool_decide (name (OPTIONS t) = n)); simpl; [done|].
  intros H. by rewrite IH.
Qed.

Lemma named_filter_other n m q :
  n ≠ m →
  named n (List.filter (λ t, negb (bool_decide (name (OPTIONS t) = m))) q)
    = named n q.
Proof.
  intros Hne. unfold named. induction q as [|t q IH]; simpl; [done|].
  destruct (bool_decide (name (OPTIONS t) = m)) eqn:E; simpl.
  - apply bool_decide_eq_true in E.
    rewrite (bool_decide_false (name (OPTIONS t) = n)) by congruence.
    exact IH.
  - destruct (bool_decide (name (OPTIONS t) = n)); by rewrite IH.
Qed.

Lemma named_filter_self n q :
  named n (List.filter (λ t, negb (bool_decide (name (OPTIONS t) = n))) q)
    = [].
Proof.
  unfold named. induction q as [|t q IH]; simpl; [done|].
  destruct (bool_decide (name (OPTIONS t) = n)) eqn:E; simpl; [done|].
  by rewrite E.
Qed.

(** X10.  [notRequired] returns a schema without any test named
    ["required"] and with every other test of the receiver, in order; the
    exclusivity table is carried over as it is, so the name stays flagged;
    outside a window the receiver keeps its queue. *)
Theorem notRequired_correct h l s q tab :
  schema_at h l s q tab →
  ∃ l' h' q',
    notRequired l h = Ok (l', h') ∧
    queue h' l' = Some q' ∧
    named (Some "required") q' = [] ∧
    (∀ n, n ≠ Some "required" → named n q' = named n q) ∧
    exclusive_table h' l' = Some tab ∧
    (_mutate s = false → queue h' l = Some q).
Proof.
  intros Hat. pose proof Hat as (Hs & Hq & Ht).
  destruct (notRequired_run h l s q tab Hat)
    as (l' & h' & s' & E & (Hs' & Hq' & Ht') & Hcopy & _).
  eexists l', h', _. split; [done|].
  unfold queue, exclusive_table. rewrite Hs'.
  split; [exact Hq'|]. split; [apply named_filter_self|].
  split; [intros n Hn; by apply named_filter_other|].
  split; [done|].
  intros Hm. destruct (Hcopy Hm) as [(X1 & X2 & _) _].
  rewrite (X1 _ _ Hs). by apply X2.
Qed.

(** X11.  [required()] followed by [notRequired()] gives back the queue the
    schema had, when it held no test named ["required"]; the exclusivity
    table keeps the flag that [required] set. *)
Theorem required_notRequired h l s q tab msg f :
  schema_at h l s q tab →
  named (Some "required") q = [] →
  ∃ l1 h1 l2 h2,
    required msg f l h = Ok (l1, h1) ∧
    notRequired l1 h1 = Ok (l2, h2) ∧
    queue h2 l2 = Some q ∧
    exclusive_table h2 l2 = Some (<["required" := true]> tab).
Proof.
  intros Hat Hnone.
  set (opts := mkTestConfig (Some "required")
                 (Some (from_option id (LocaleMsg "required") msg)) true
                 (Some (UserFn f))).
  destruct (test_spec h l s q tab opts (UserFn f) Hat eq_refl (λ _, eq_refl))
    as (l1 & h1 & s1 & E1 & Hat1 & _).
  destruct (notRequired_run h1 l1 s1 _ _ Hat1)
    as (l2 & h2 & s2 & E2 & (Hs2 & Hq2 & Ht2) & _).
  exists l1, h1, l2, h2. split; [exact E1|]. split; [exact E2|].
  unfold queue, exclusive_table. rewrite Hs2. split.
  2:{ rewrite Ht2. f_equal. unfold table_after. simpl.
      by rewrite records_other. }
  rewrite Hq2. f_equal. unfold queue_after.
  rewrite List.filter_app. simpl. rewrite app_nil_r.
  assert (List.filter
            (keep_test (normalize opts) (isExclusive_of opts tab)
               (createValidation (normalize opts))) q = q) as ->.
  { clear -Hnone. unfold named in Hnone.
    induction q as [|t q IH]; simpl in *; [done|].
    unfold keep_test at 1. simpl.
    destruct (bool_decide (name (OPTIONS t) = Some "required")); [done|].
    by rewrite IH. }
  by apply filter_other_names.
Qed.

(** ** concat, once more *)

(** The white- and blacklist of the result of [concat], its queue, and the
    other schema after the call. *)
Lemma concat_full h a b sa sb qa qb ta tb :
  schema_at h a sa qa ta → schema_at h b sb qb tb → a ≠ b →
  type sb = type sa ∨ type sa = "mixed" →
  _mutate sb = false → Forall registrable qb →
  ∃ n h' sn,
    concat (Some b) a h = Ok (n, h') ∧
    schemas h' !! n = Some sn ∧
    _whitelist sn =
      RefSet.merge (_whitelist sb) (_blacklist sb) (_whitelist sa) ∧
    _blacklist sn =
      RefSet.merge (_blacklist sb) (_whitelist sb) (_blacklist sa) ∧
    queue h' n = Some (after_all (plain_at h (_exclusive sa)) qb qa ta).1 ∧
    schemas h' !! b = Some sb ∧
    queue h' b = Some qb.
Proof.
  intros Hata Hatb Hne Hty Hmb Hreg.
  pose proof Hata as (Ha & Hqa & Hta). pose proof Hatb as (Hb & Hqb & Htb).
  assert (a < length (schemas h)) as La by by eapply lookup_lt_Some.
  assert (b < length (schemas h)) as Lb by by eapply lookup_lt_Some.
  unfold concat. rewrite bool_decide_false by congruence.
  unfold bind at 1, get_schema at 1. rewrite Hb.
  unfold bind at 1, get_schema at 1. rewrite Ha.
  assert (negb (bool_decide (type sb = type sa)) &&
          negb (bool_decide (type sa = "mixed")) = false) as ->.
  { destruct Hty as [Hty|Hty]; rewrite (bool_decide_true _ Hty); simpl;
      [done|apply andb_false_r]. }
  unfold bind at 1. rewrite (clone_copy h b sb qb tb Hatb Hmb).
  set (n := length (schemas h)).
  set (cs := clone_schema b n (length (arrays h)) (length (tables h)) sb).
  set (h1 := mkHeap (schemas h ++ [cs]) (arrays h ++ [qb]) (tables h ++ [tb])
              ({[length (tables h)]} ∪ protos h)).
  assert (schemas h1 !! n = Some cs) as Hn by apply lookup_snoc.
  assert (schemas h1 !! a = Some sa) as Ha1 by by apply lookup_app_l_Some.
  assert (schemas h1 !! b = Some sb) as Hb1 by by apply lookup_app_l_Some.
  assert (arrays h1 !! tests sa = Some qa) as Hqa1
    by by apply lookup_app_l_Some.
  assert (arrays h1 !! tests sb = Some qb) as Hqb1
    by by apply lookup_app_l_Some.
  assert (tables h1 !! _exclusive sa = Some ta) as Hta1
    by by apply lookup_app_l_Some.
  assert (∀ a0 q0, arrays h !! a0 = Some q0 → arrays h1 !! a0 = Some q0)
    as Harr by (intros; by apply lookup_app_l_Some).
  assert (bool_decide (_exclusive sa ∈ protos h1) =
          plain_at h (_exclusive sa)) as Hpl.
  { unfold plain_at. apply bool_decide_ext. simpl.
    apply lookup_lt_Some in Hta. set_solver by lia. }
  assert (a ≠ n) as Hna by (unfold n; lia).
  assert (b ≠ n) as Hnb by (unfold n; lia).
  clearbody h1.
  unfold bind at 1, get_schema at 1. rewrite Hn.
  concat_step (put_schema_writes h1 n cs (merge cs sa) Hn) Hn Ha1 Hb1.
  rewrite <- A in Hqa1, Hqb1. rewrite <- T in Hta1. rewrite <- P in Hpl.
  unfold bind at 1, get_schema at 1. rewrite Hb1.
  set (S1 := if hasDefault (spec sb)
             then set_spec (set_default (default (spec sb))) (merge cs sa)
             else merge cs sa).
  assert (∃ h2,
            (if hasDefault (spec sb)
             then modify_schema n
                    (set_spec (set_default (default (spec sb))))
             else ret tt) h0 = Ok (tt, h2) ∧
            schemas h2 !! n = Some S1 ∧
            (∀ l0, l0 ≠ n → schemas h2 !! l0 = schemas h0 !! l0) ∧
            arrays h2 = arrays h0 ∧ tables h2 = tables h0 ∧
            protos h2 = protos h0) as Hstep.
  { subst S1. destruct (hasDefault (spec sb)).
    - by apply modify_schema_writes.
    - exists h0. by repeat split. }
  clear A T P.
  concat_step Hstep Hn Ha1 Hb1.
  rewrite <- A in Hqa1, Hqb1. rewrite <- T in Hta1. rewrite <- P in Hpl. clear A T P.
  unfold bind at 1, get_schema at 1. rewrite Ha1.
  concat_step (modify_schema_writes h2 n _ (set_tests (tests sa)) Hn)
    Hn Ha1 Hb1.
  rewrite <- A in Hqa1, Hqb1. rewrite <- T in Hta1. rewrite <- P in Hpl. clear A T P.
  concat_step (modify_schema_writes h3 n _ (set_exclusive (_exclusive sa)) Hn)
    Hn Ha1 Hb1.
  rewrite <- A in Hqa1, Hqb1. rewrite <- T in Hta1. rewrite <- P in Hpl. clear A T P.
  unfold bind at 1, get_schema at 1. rewrite Ha1.
  unfold bind at 1, get_schema at 1. rewrite Hb1.
  concat_step
    (modify_schema_writes h4 n _
       (λ s, set_lists
               (RefSet.merge (_whitelist sb) (_blacklist sb) (_whitelist sa))
               (_blacklist s) s) Hn)
    Hn Ha1 Hb1.
  rewrite <- A in Hqa1, Hqb1. rewrite <- T in Hta1. rewrite <- P in Hpl. clear A T P.
  unfold bind at 1, get_schema at 1. rewrite Ha1.
  unfold bind at 1, get_schema at 1. rewrite Hb1.
  concat_step
    (modify_schema_writes h5 n _
       (λ s, set_lists (_whitelist s)
               (RefSet.merge (_blacklist sb) (_whitelist sb) (_blacklist sa))
               s) Hn)
    Hn Ha1 Hb1.
  rewrite <- A in Hqa1, Hqb1. rewrite <- T in Hta1. rewrite <- P in Hpl. clear A T P.
  unfold bind at 1, get_schema at 1. rewrite Hb1.
  unfold bind at 1, get_array at 1. rewrite Hqb1.
  unfold withMutation.
  unfold bind at 1. unfold bind at 1. unfold get_schema at 1. rewrite Hn.
  match type of Hn with _ = Some ?x => set (S2 := x) in * end.
  concat_step (put_schema_writes h6 n S2 (set_mutate true S2) Hn) Hn Ha1 Hb1.
  rewrite <- A in Hqa1, Hqb1. rewrite <- T in Hta1. rewrite <- P in Hpl. clear A T P.
  destruct (register_all_in_window qb Hreg h7 n (set_mutate true S2) qa ta)
    as (h8 & a8 & E8 & (Hn8 & Hq8 & Ht8) & F1 & F2 & F3 & F4);
    [by repeat split|done|].
  change (plain_at h7 (_exclusive (set_mutate true S2)))
    with (bool_decide (_exclusive sa ∈ protos h7)) in Hq8, Ht8.
  rewrite Hpl in Hq8, Ht8.
  unfold bind at 1. rewrite E8.
  rewrite <- (F1 b Hnb) in Hb1.
  unfold bind at 1.
  destruct (modify_schema_writes h8 n _ (set_mutate (_mutate S2)) Hn8)
    as (h9 & E9 & Hn9 & F9 & A9 & T9 & P9).
  rewrite E9. unfold ret.
  eexists n, h9, _. split; [done|].
  split; [exact Hn9|].
  split; [done|]. split; [done|].
  unfold queue. rewrite Hn9. simpl. rewrite A9.
  split; [exact Hq8|].
  rewrite (F9 b Hnb), Hb1.
  split; [done|]. by apply F2, Hqb1.
Qed.

(** X12.  The edges of [concat]: without an argument, or with the receiver
    itself, it returns the receiver and leaves the store as it is; with a
    schema of another type it throws, when the receiver's type is not
    ["mixed"], the [TypeError] whose message names the two types, the
    receiver's first; a receiver of type ["mixed"] takes a schema of any
    type which is outside a withMutation window, and returns a new schema
    object. *)
Theorem concat_edges h a sa qa ta :
  schema_at h a sa qa ta →
  concat None a h = Ok (a, h) ∧
  concat (Some a) a h = Ok (a, h) ∧
  (∀ b sb,
     schemas h !! b = Some sb → b ≠ a →
     type sb ≠ type sa → type sa ≠ "mixed" →
     concat (Some b) a h =
       Throw (TypeError
                ("You cannot `concat()` schema's of different types: " ++
                 type sa ++ " and " ++ type sb))) ∧
  (∀ b sb qb tb,
     schema_at h b sb qb tb → b ≠ a → type sa = "mixed" →
     _mutate sb = false → Forall registrable qb →
     ∃ n h', concat (Some b) a h = Ok (n, h') ∧
             schemas h !! n = None ∧ is_Some (schemas h' !! n)).
Proof.
  intros Hata. pose proof Hata as (Ha & _).
  split; [done|]. split; [|split].
  - unfold concat. by rewrite bool_decide_true.
  - intros b sb Hb Hne Hty Hmixed. unfold concat.
    rewrite bool_decide_false by done.
    unfold bind at 1, get_schema at 1. rewrite Hb.
    unfold bind at 1, get_schema at 1. rewrite Ha.
    by rewrite !bool_decide_false.
  - intros b sb qb tb Hatb Hne Hmixed Hmb Hreg.
    destruct (concat_spec h a b sa sb qa qb ta tb Hata Hatb
                (not_eq_sym Hne) (or_intror Hmixed) Hmb Hreg)
      as (n & h' & sn & E & Hfresh & Hn & _).
    exists n, h'. split; [done|]. split; [done|]. by exists sn.
Qed.

(** X13.  In [concat] the other schema wins a conflict between white- and
    blacklist: a value is whitelisted in the result exactly when the other
    schema does not blacklist it and it is on the whitelist of the other
    schema or of the receiver; and the same with the two lists exchanged. *)
Theorem concat_lists h a b sa sb qa qb ta tb :
  schema_at h a sa qa ta → schema_at h b sb qb tb → a ≠ b →
  type sb = type sa ∨ type sa = "mixed" →
  _mutate sb = false → Forall registrable qb →
  refset_wf (_whitelist sb) → refset_wf (_blacklist sb) →
  ∃ n h' sn,
    concat (Some b) a h = Ok (n, h') ∧
    schemas h' !! n = Some sn ∧
    ∀ v,
      (member v (_whitelist sn) = true ↔
       member v (_blacklist sb) = false ∧
       (member v (_whitelist sb) = true ∨ member v (_whitelist sa) = true)) ∧
      (member v (_blacklist sn) = true ↔
       member v (_whitelist sb) = false ∧
       (member v (_blacklist sb) = true ∨ member v (_blacklist sa) = true)).
Proof.
  intros Hata Hatb Hne Hty Hmb Hreg Hw Hb.
  destruct (concat_full h a b sa sb qa qb ta tb Hata Hatb Hne Hty Hmb Hreg)
    as (n & h' & sn & E & Hn & Hwl & Hbl & _).
  exists n, h', sn. split; [done|]. split; [done|].
  intros v. rewrite Hwl, Hbl. split; by apply member_merge_iff.
Qed.

Lemma after_all_nil p q tab : after_all p [] q tab = (q, tab).
Proof. reflexivity. Qed.

Lemma after_all_other_names n ts :
  n ∉ names_of ts →
  ∀ p q tab, named n (after_all p ts q tab).1 = named n q.
Proof.
  induction ts as [|t ts IH]; intros Hn p q tab; [done|].
  rewrite after_all_cons. simpl in Hn.
  apply not_elem_of_cons in Hn as [Hne Hn].
  rewrite IH by done. by apply named_queue_after_other.
Qed.

Lemma after_all_last p pre t :
  ∀ q tab, ∃ pre',
    (after_all p (pre ++ [t]) q tab).1 =
      pre' ++ [createValidation (normalize (OPTIONS t))].
Proof.
  induction pre as [|t0 pre IH]; intros q tab.
  - simpl. unfold after_all. simpl. unfold queue_after. eauto.
  - simpl. rewrite after_all_cons. apply IH.
Qed.

(** X14.  For [B] outside a withMutation window, the queue of [A.concat(B)]
    is [A]'s queue with [B]'s tests registered on it: with no tests in [B]
    it is [A]'s queue; a test of [A] whose name no test of [B] bears is
    kept, in its place among those of its name; and the last test of [B] is
    the last test of the result.  [B] and its queue are as before. *)
Theorem concat_tests h a b sa sb qa qb ta tb :
  schema_at h a sa qa ta → schema_at h b sb qb tb → a ≠ b →
  type sb = type sa ∨ type sa = "mixed" →
  _mutate sb = false → Forall registrable qb →
  ∃ n h' qn,
    concat (Some b) a h = Ok (n, h') ∧
    queue h' n = Some qn ∧
    (qb = [] → qn = qa) ∧
    (∀ n0, n0 ∉ names_of qb → named n0 qn = named n0 qa) ∧
    (∀ pre t, qb = pre ++ [t] →
       ∃ pre', qn = pre' ++ [createValidation (normalize (OPTIONS t))]) ∧
    schemas h' !! b = Some sb ∧ queue h' b = Some qb.
Proof.
  intros Hata Hatb Hne Hty Hmb Hreg.
  destruct (concat_full h a b sa sb qa qb ta tb Hata Hatb Hne Hty Hmb Hreg)
    as (n & h' & sn & E & Hn & _ & _ & Hq & Hb & Hqb).
  exists n, h', (after_all (plain_at h (_exclusive sa)) qb qa ta).1.
  split; [done|]. split; [done|]. split; [by intros ->|].
  split; [intros n0 Hn0; by apply after_all_other_names|].
  split; [|done].
  intros pre t ->. apply after_all_last.
Qed.

(** ** default, transform, nullable, the constructor *)

(** What every builder starts from: the object [clone] hands out is live,
    with the receiver's queue and table, and is the receiver itself in a
    window and a copy at a new location otherwise. *)
Lemma clone_cell h l s q tab :
  schema_at h l s q tab →
  ∃ l' h' s0,
    clone l h = Ok (l', h') ∧ schema_at h' l' s0 q tab ∧
    ((_mutate s = true ∧ l' = l ∧ h' = h ∧ s0 = s) ∨
     (_mutate s = false ∧ schemas h !! l' = None ∧ extends h h' ∧
      s0 = clone_schema l l' (tests s0) (_exclusive s0) s)).
Proof.
  intros Hat. pose proof Hat as (Hs & Hq & Ht).
  destruct (_mutate s) eqn:Hm.
  - exists l, h, s. split; [by eapply clone_in_window|]. split; [done|].
    by left.
  - eexists _, _, _. split; [by eapply clone_copy|]. split.
    + repeat split; simpl; apply lookup_snoc.
    + right. split; [done|]. split; [by apply lookup_ge_None_2|].
      split; [|done].
      repeat split; simpl; intros; by apply lookup_app_l_Some.
Qed.








(** X16.  [transform(fn)] puts [fn] at the end of the chain: on an input
    other than [undefined] the cast runs the receiver's transforms first and
    [fn] last, each on the value so far and the raw input, and returns what
    [fn] returns unless that is [undefined].  An [undefined] input goes
    through no transform at all. *)
Theorem transform_runs_last C h l s q tab fn :
  schema_at h l s q tab →
  ∃ l' h' s',
    transform fn l h = Ok (l', h') ∧
    schemas h' !! l' = Some s' ∧
    transforms s' = transforms s ++ [fn] ∧
    (∀ raw,
       raw ≠ VUndef →
       call_transform C fn
         (foldl (λ value f, call_transform C f value raw) raw (transforms s))
         raw ≠ VUndef →
       ∀ h0,
         _cast C s' raw h0 =
           Ok (call_transform C fn
                 (foldl (λ value f, call_transform C f value raw) raw
                    (transforms s)) raw, h0)) ∧
    (∀ C', call_default C' = call_default C →
           _cast C' s' VUndef = _cast C s' VUndef).
Proof.
  intros Hat.
  destruct (clone_cell h l s q tab Hat)
    as (l' & h1 & s0 & Hcl & (Hs0 & _) & Hcase).
  assert (transforms s0 = transforms s) as Ht0.
  { destruct Hcase as [(_ & _ & _ & ->)|(_ & _ & _ & ->)]; done. }
  destruct (modify_schema_frame h1 l' s0
              (λ s, set_transforms (transforms s ++ [fn]) s) Hs0)
    as (h2 & E2 & Hs2 & _).
  eexists l', h2, _. split.
  { unfold transform. unfold bind at 1. rewrite Hcl.
    unfold bind at 1. by rewrite E2. }
  split; [exact Hs2|]. split; [simpl; by rewrite Ht0|]. split.
  - intros raw Hraw Hv h0. unfold _cast. simpl.
    rewrite (bool_decide_false (raw = VUndef)) by done.
    rewrite Ht0, foldl_app. simpl.
    by rewrite bool_decide_false.
  - intros C' HC'. unfold _cast, default_get.
    rewrite (bool_decide_true (VUndef = VUndef)) by done.
    by rewrite HC'.
Qed.

(** X17.  The constructor, in any store: it returns a new schema object and
    writes nothing the store held.  The new schema has the given type, or
    ["mixed"] when none or the empty string is given, the initial [spec] with
    the given overrides, the [locale.notType] type-error test and no other
    synthesized test, an empty queue, an empty exclusivity table, empty
    white- and blacklist, no conditions and no transforms, and it is outside
    any window. *)
Theorem constructor_correct h ty sp :
  ∃ h' s',
    MixedSchema_new ty sp h = Ok (length (schemas h), h') ∧
    extends h h' ∧
    schemas h' !! length (schemas h) = Some s' ∧
    type s' = match ty with
              | Some t => if bool_decide (t = "") then "mixed" else t
              | None => "mixed"
              end ∧
    spec s' = sp default_spec ∧
    _typeError s' = Some notType_test ∧
    _whitelistError s' = None ∧ _blacklistError s' = None ∧
    _whitelist s' = RefSet.empty ∧ _blacklist s' = RefSet.empty ∧
    conditions s' = [] ∧ transforms s' = [] ∧ _mutate s' = false ∧
    queue h' (length (schemas h)) = Some [] ∧
    exclusive_table h' (length (schemas h)) = Some ∅.
Proof.
  eexists _, _. split.
  { unfold MixedSchema_new, withMutation, typeError, clone. mrun.
    reflexivity. }
  split.
  { repeat split; simpl; intros; by apply lookup_app_l_Some. }
  unfold queue, exclusive_table. simpl. rewrite lookup_snoc.
  split; [reflexivity|]. simpl.
  do 10 (split; [done|]). split; apply lookup_snoc.
Qed.


Lemma member_clone_refset this next v r :
  isSchema v = false →
  member v (clone_refset this next r) = member v r.
Proof.
  intros Hv. destruct v; try done; simpl; apply bool_decide_ext.
  all: try (rewrite list_elem_of_fmap; split;
            [ intros (w & E & Hin); destruct w; simpl in E;
              try case_bool_decide; by simplify_eq
            | intros Hin; eexists; split; [|exact Hin]; done ]).
  rewrite <- list_fmap_compose.
  assert (fst ∘ (λ kv : string * jsval, (kv.1, clone_val this next kv.2))
          = fst) as -> by done.
  done.
Qed.



(** ** oneOf and notOneOf, once more *)

Lemma oneOf_run h l s q tab enums msg :
  schema_at h l s q tab →
  ∃ l' h' s0,
    oneOf enums msg l h = Ok (l', h') ∧
    schemas h' !! l' =
      Some (set_whitelistError
              (Some (createValidation
                       (mkTestConfig (Some "oneOf") (Some msg) false
                          (Some OneOfFn))))
              (foldl oneOf_step s0 enums)) ∧
    (∀ v, isSchema v = false →
          member v (_whitelist s0) = member v (_whitelist s) ∧
          member v (_blacklist s0) = member v (_blacklist s)).
Proof.
  intros Hat.
  destruct (clone_cell h l s q tab Hat)
    as (l' & h1 & s0 & Hcl & (Hs0 & _) & Hcase).
  destruct (modify_schema_frame h1 l' s0 (λ s, foldl oneOf_step s enums) Hs0)
    as (h2 & E2 & Hs2 & _).
  destruct (modify_schema_frame h2 l' _
              (set_whitelistError
                 (Some (createValidation
                          (mkTestConfig (Some "oneOf") (Some msg) false
                             (Some OneOfFn))))) Hs2)
    as (h3 & E3 & Hs3 & _).
  exists l', h3, s0. split.
  { unfold oneOf. unfold bind at 1. rewrite Hcl.
    unfold bind at 1. rewrite E2. unfold bind at 1. by rewrite E3. }
  split; [exact Hs3|].
  intros v Hv.
  destruct Hcase as [(_ & _ & _ & ->)|(_ & _ & _ & ->)]; [done|].
  simpl. split; by apply member_clone_refset.
Qed.



(** X19.  The test that [oneOf] installs, run on the schema it returns: it is
    named ["oneOf"] and carries the given message; it passes [undefined]; it
    passes every given value that is not a reference; and, when the whitelist
    holds no reference, it fails every other defined value that is not on the
    whitelist. *)
Theorem oneOf_test_outcome C o h l s q tab enums msg :
  schema_at h l s q tab →
  ∃ l' h' s' t,
    oneOf enums msg l h = Ok (l', h') ∧ schemas h' !! l' = Some s' ∧
    _whitelistError s' = Some t ∧
    name (OPTIONS t) = Some "oneOf" ∧ message (OPTIONS t) = Some msg ∧
    run_test C s' o VUndef t = true ∧
    (∀ v, v ∈ enums → isRef v = false → run_test C s' o v t = true) ∧
    (∀ v, v ≠ VUndef → isRef v = false →
          member v (_whitelist s') = false →
          RefSet.refs (_whitelist s') = [] →
          run_test C s' o v t = false).
Proof.
  intros Hat.
  destruct (oneOf_run h l s q tab enums msg Hat)
    as (l' & h' & s0 & E & Hs' & _).
  eexists l', h', _, _. split; [done|]. split; [exact Hs'|].
  split; [reflexivity|]. split; [done|]. split; [done|]. split; [done|].
  split.
  - intros v Hv Hr. unfold run_test.
    cbn [test_fn OPTIONS createValidation _whitelist set_whitelistError].
    destruct (oneOf_step_invariant v enums s0 (or_introl Hv)) as [Hw _].
    destruct (bool_decide (v = VUndef)); [done|].
    assert (v ∈ RefSet.list (_whitelist (foldl oneOf_step s0 enums))) as Hin
      by (destruct v; try done; simpl in Hw;
          by apply bool_decide_eq_true in Hw).
    unfold RefSet.has. by rewrite (bool_decide_eq_true_2 _ Hin).
  - intros v Hv Hr Hm Hrefs. unfold run_test.
    cbn [test_fn OPTIONS createValidation _whitelist set_whitelistError] in *.
    rewrite (bool_decide_false (v = VUndef)) by done.
    assert (v ∉ RefSet.list (_whitelist (foldl oneOf_step s0 enums))) as Hout
      by (destruct v; try done; simpl in Hm;
          by apply bool_decide_eq_false in Hm).
    unfold RefSet.has. rewrite Hrefs.
    by rewrite (bool_decide_eq_false_2 _ Hout).
Qed.

(** X20.  [nullable(b)] returns a schema whose [spec.nullable] is [b] and
    whose [isType] accepts [null] exactly when [b] is set or its
    [_typeCheck] accepts [null]; after [nullable()] the type-error test
    passes [null]. *)
Theorem nullable_isType C o h l s q tab b :
  schema_at h l s q tab →
  ∃ l' h' s',
    nullable_set b l h = Ok (l', h') ∧ schemas h' !! l' = Some s' ∧
    nullable (spec s') = b ∧
    isType C s' VNull = b || _typeCheck C s' VNull ∧
    (b = true → run_test C s' o VNull notType_test = true).
Proof.
  intros Hat.
  destruct (clone_cell h l s q tab Hat)
    as (l' & h1 & s0 & Hcl & (Hs0 & _) & _).
  destruct (modify_schema_frame h1 l' s0 (set_spec (set_nullable b)) Hs0)
    as (h2 & E2 & Hs2 & _).
  eexists l', h2, _. split.
  { unfold nullable_set. unfold bind at 1. rewrite Hcl.
    unfold bind at 1. by rewrite E2. }
  split; [exact Hs2|]. split; [done|]. split.
  - unfold isType. simpl. by destruct b.
  - intros ->. unfold run_test, isType. simpl. done.
Qed.

Lemma after_all_table_unnamed ts :
  Forall (λ t, truthy_name (name (OPTIONS t)) = false) ts →
  ∀ p q tab, (after_all p ts q tab).2 = tab.
Proof.
  induction 1 as [|t ts Ht _ IH]; intros p q tab; [done|].
  rewrite after_all_cons, IH. unfold table_after. by rewrite Ht.
Qed.

(** X21.  What [concat] does to the receiver, for another schema outside a
    withMutation window: the receiver's schema object and its [tests] array
    are as before, and its exclusivity table, which the result shares, ends
    as registering the other schema's tests one by one leaves it (the flag
    of each truthy name written in place; on a table that inherits from
    [Object.prototype] and has no entry ["__proto__"], the write under that
    name is lost); it is unchanged when none of those tests has a name. *)
Theorem concat_receiver h a b sa sb qa qb ta tb :
  schema_at h a sa qa ta → schema_at h b sb qb tb → a ≠ b →
  type sb = type sa ∨ type sa = "mixed" →
  _mutate sb = false → Forall registrable qb →
  ∃ n h' sn,
    concat (Some b) a h = Ok (n, h') ∧
    schemas h' !! n = Some sn ∧ _exclusive sn = _exclusive sa ∧
    schemas h' !! a = Some sa ∧
    queue h' a = Some qa ∧
    exclusive_table h' a =
      Some (after_all (plain_at h (_exclusive sa)) qb qa ta).2 ∧
    (Forall (λ t, truthy_name (name (OPTIONS t)) = false) qb →
     exclusive_table h' a = Some ta).
Proof.
  intros Hata Hatb Hne Hty Hmb Hreg.
  destruct (concat_spec h a b sa sb qa qb ta tb Hata Hatb Hne Hty Hmb Hreg)
    as (n & h' & sn & E & _ & Hn & _ & He & _ & _ & Ha & Hq & Ht).
  exists n, h', sn. do 6 (split; [done|]).
  intros Hun. by rewrite Ht, after_all_table_unnamed.
Qed.

(** ** The further theorems at sample values *)

Lemma sample_set_wf : refset_wf sample_set.
Proof.
  split; [apply NoDup_singleton|]. split; [apply NoDup_singleton|].
  split; repeat constructor.
Defined.

Lemma mixed_heap_live : schema_at mixed_heap 0 mixed_schema [] ∅.
Proof. split; [reflexivity|]. split; reflexivity. Defined.

Lemma exclusive_pair_live :
  schema_at exclusive_pair_heap 2 (schema_in exclusive_pair_heap 2)
    [x_test] {["x" := true]}.
Proof. split; [reflexivity|]. split; vm_compute; reflexivity. Defined.

Lemma exclusive_pair_receiver_live :
  schema_at exclusive_pair_heap 0 (schema_in exclusive_pair_heap 0) [] ∅.
Proof. split; [reflexivity|]. split; vm_compute; reflexivity. Defined.

Lemma x_test_registrable : Forall registrable [x_test].
Proof.
  constructor; [|constructor]. split; [by eexists|]. intros _. reflexivity.
Defined.

Lemma refset_wf_kept_witness :
  refset_wf (RefSet.add (VNum 2) sample_set) ∧
  refset_wf (RefSet.delete (VRef "k") sample_set) ∧
  refset_wf (RefSet.merge sample_set sample_set sample_set).
Proof.
  destruct (refset_wf_kept sample_set sample_set_wf) as (_ & Hv & Hm).
  split; [exact (proj1 (Hv (VNum 2)))|].
  split; [exact (proj2 (Hv (VRef "k")))|].
  exact (Hm sample_set sample_set).
Defined.

Lemma refset_size_witness :
  RefSet.size (RefSet.add (VNum 1) sample_set) = 2 ∧
  RefSet.size (RefSet.delete (VNum 1) sample_set) = 1.
Proof. exact (refset_size sample_set (VNum 1) sample_set_wf). Defined.

Lemma refset_merge_member_witness :
  member (VNum 1) (RefSet.merge sample_set sample_set RefSet.empty) = false.
Proof.
  exact (proj2 (refset_merge_member (VNum 1) RefSet.empty sample_set
                  sample_set sample_set_wf sample_set_wf) eq_refl).
Defined.

Lemma refset_has_literal_witness :
  RefSet.has (VNum 1) id (RefSet.add (VNum 1) sample_set) = true ∧
  RefSet.has (VNum 1) id (RefSet.delete (VNum 1) sample_set) = false.
Proof. exact (refset_has_literal (VNum 1) id sample_set eq_refl). Defined.

Lemma test_usage_errors_witness :
  test (mkTestConfig (Some "x") None false None) 0 mixed_heap
    = Throw (TypeError "`test` is a required parameters") ∧
  test (mkTestConfig (Some "") None true (Some (UserFn 1))) 0 mixed_heap
    = Throw (TypeError
               "Exclusive tests must provide a unique `name` identifying the test").
Proof.
  split.
  - exact (proj1 (test_usage_errors mixed_heap 0 mixed_schema [] ∅
                    (mkTestConfig (Some "x") None false None)
                    mixed_heap_live) eq_refl).
  - exact (proj2 (test_usage_errors mixed_heap 0 mixed_schema [] ∅
                    (mkTestConfig (Some "") None true (Some (UserFn 1)))
                    mixed_heap_live)
             (ex_intro _ (UserFn 1) eq_refl) eq_refl eq_refl).
Defined.

Lemma test_leaves_receiver_witness :
  ∃ l' h',
    test (user_config "x" true 1) 0 mixed_heap = Ok (l', h') ∧
    schemas mixed_heap !! l' = None ∧
    schemas h' !! 0 = Some mixed_schema ∧
    queue h' 0 = Some [] ∧
    exclusive_table h' 0 = Some ∅ ∧
    extends mixed_heap h'.
Proof.
  exact (test_leaves_receiver mixed_heap 0 mixed_schema [] ∅
           (user_config "x" true 1) mixed_heap_live eq_refl
           (ex_intro _ (UserFn 1) eq_refl) (λ _, eq_refl)).
Defined.

Lemma test_keeps_other_names_witness :
  ∃ l' h' q',
    test (user_config "y" false 2) 2 exclusive_pair_heap = Ok (l', h') ∧
    queue h' l' = Some q' ∧
    named (Some "x") q' = [x_test].
Proof.
  refine (test_keeps_other_names exclusive_pair_heap 2 _ [x_test]
            {["x" := true]} (user_config "y" false 2) (Some "x")
            exclusive_pair_live (ex_intro _ (UserFn 2) eq_refl) _ _).
  - simpl. discriminate.
  - simpl. discriminate.
Defined.

Lemma test_flag_follows_latest_witness :
  (∃ l1 h1 l2 h2 q2,
     test (user_config "x" true 3) 0 mixed_heap = Ok (l1, h1) ∧
     test (user_config "x" false 4) l1 h1 = Ok (l2, h2) ∧
     queue h2 l2 = Some q2 ∧
     named (Some "x") q2 =
       [createValidation (normalize (user_config "x" false 4))]) ∧
  (∃ l1 h1 l2 h2 q2,
     test (user_config "x" false 3) 2 exclusive_pair_heap = Ok (l1, h1) ∧
     test (user_config "x" false 4) l1 h1 = Ok (l2, h2) ∧
     queue h2 l2 = Some q2 ∧
     named (Some "x") q2 =
       [createValidation (normalize (user_config "x" false 3));
        createValidation (normalize (user_config "x" false 4))]).
Proof.
  split.
  - exact (proj1 (test_flag_follows_latest mixed_heap 0 mixed_schema [] ∅
                    (user_config "x" true 3) (user_config "x" false 4)
                    (UserFn 3) (UserFn 4) mixed_heap_live
                    eq_refl eq_refl eq_refl eq_refl
                    ltac:(vm_compute; discriminate) eq_refl) eq_refl).
  - refine (proj2 (test_flag_follows_latest exclusive_pair_heap 2 _ [x_test]
                     {["x" := true]}
                     (user_config "x" false 3) (user_config "x" false 4)
                     (UserFn 3) (UserFn 4) exclusive_pair_live
                     eq_refl eq_refl eq_refl eq_refl
                     ltac:(vm_compute; discriminate) eq_refl) eq_refl _ _).
    + vm_compute. reflexivity.
    + discriminate.
Defined.

(** On [mixed()], outside a window: an exclusive test ["__proto__"] and
    then a non-exclusive one with another function are both in the queue,
    and the table has no entry. *)
Lemma test_proto_not_flagged_witness :
  ∃ l1 h1 l2 h2 q2,
    test (user_config "__proto__" true 3) 0 mixed_heap = Ok (l1, h1) ∧
    test (user_config "__proto__" false 4) l1 h1 = Ok (l2, h2) ∧
    queue h2 l2 = Some q2 ∧
    exclusive_table h2 l2 = Some ∅ ∧
    named (Some "__proto__") q2 =
      [createValidation (normalize (user_config "__proto__" true 3));
       createValidation (normalize (user_config "__proto__" false 4))].
Proof.
  refine (test_proto_not_flagged mixed_heap 0 mixed_schema [] ∅
            (user_config "__proto__" true 3)
            (user_config "__proto__" false 4)
            (UserFn 3) (UserFn 4) mixed_heap_live
            eq_refl eq_refl eq_refl eq_refl eq_refl eq_refl eq_refl eq_refl
            _).
  discriminate.
Defined.

Lemma withMutation_test_witness :
  ∃ h',
    withMutation (test (user_config "x" true 1)) 0 mixed_heap = Ok (0, h') ∧
    queue h' 0 = Some [x_test] ∧
    exclusive_table h' 0 = Some {["x" := true]}.
Proof.
  destruct (withMutation_test mixed_heap 0 mixed_schema [] ∅
              (user_config "x" true 1) mixed_heap_live
              (ex_intro _ (UserFn 1) eq_refl) (λ _, eq_refl))
    as (h' & s' & E & (Hs & Hq & Ht) & _).
  exists h'. split; [exact E|]. unfold queue, exclusive_table.
  rewrite Hs. split; [exact Hq|exact Ht].
Defined.

Lemma required_heap_live :
  schema_at required_heap 1 (schema_in required_heap 1)
    [createValidation
       (mkTestConfig (Some "required") (Some (LocaleMsg "required")) true
          (Some (UserFn 5)))]
    {["required" := true]}.
Proof. split; [reflexivity|]. split; vm_compute; reflexivity. Defined.

Lemma notRequired_correct_witness :
  ∃ l' h' q',
    notRequired 1 required_heap = Ok (l', h') ∧
    queue h' l' = Some q' ∧
    named (Some "required") q' = [] ∧
    exclusive_table h' l' = Some {["required" := true]}.
Proof.
  destruct (notRequired_correct required_heap 1 _ _ _ required_heap_live)
    as (l' & h' & q' & E & Hq & Hn & _ & Ht & _).
  exists l', h', q'. split; [exact E|]. split; [exact Hq|].
  split; [exact Hn|exact Ht].
Defined.

Lemma required_notRequired_witness :
  ∃ l1 h1 l2 h2,
    required None 5 0 mixed_heap = Ok (l1, h1) ∧
    notRequired l1 h1 = Ok (l2, h2) ∧
    queue h2 l2 = Some [] ∧
    exclusive_table h2 l2 = Some (<["required" := true]> ∅).
Proof.
  exact (required_notRequired mixed_heap 0 mixed_schema [] ∅ None 5
           mixed_heap_live eq_refl).
Defined.

Lemma typed_heap_live l :
  l < 3 → schema_at typed_heap l (schema_in typed_heap l) [] ∅.
Proof.
  intros Hl. destruct l as [|[|[|l]]]; [| | |lia];
    (split; [reflexivity|]; split; vm_compute; reflexivity).
Defined.

Lemma concat_edges_witness :
  concat None 0 typed_heap = Ok (0, typed_heap) ∧
  concat (Some 0) 0 typed_heap = Ok (0, typed_heap) ∧
  concat (Some 1) 0 typed_heap =
    Throw (TypeError
             "You cannot `concat()` schema's of different types: number and string") ∧
  (∃ n h', concat (Some 1) 2 typed_heap = Ok (n, h') ∧
           schemas typed_heap !! n = None ∧ is_Some (schemas h' !! n)).
Proof.
  destruct (concat_edges typed_heap 0 _ _ _ (typed_heap_live 0 ltac:(lia)))
    as (H1 & H2 & H3 & _).
  destruct (concat_edges typed_heap 2 _ _ _ (typed_heap_live 2 ltac:(lia)))
    as (_ & _ & _ & H4).
  split; [exact H1|]. split; [exact H2|]. split.
  - refine (H3 1 (schema_in typed_heap 1) eq_refl _ _ _);
      vm_compute; discriminate.
  - refine (H4 1 _ _ _ (typed_heap_live 1 ltac:(lia)) _ eq_refl eq_refl _).
    + discriminate.
    + constructor.
Defined.

Lemma lists_heap_live :
  schema_at lists_heap 1 (schema_in lists_heap 1) [] ∅ ∧
  schema_at lists_heap 3 (schema_in lists_heap 3) [] ∅.
Proof.
  split; (split; [reflexivity|]; split; vm_compute; reflexivity).
Defined.

Lemma lists_heap_wf :
  refset_wf (_whitelist (schema_in lists_heap 3)) ∧
  refset_wf (_blacklist (schema_in lists_heap 3)).
Proof.
  split.
  - change (refset_wf RefSet.empty). repeat split; constructor.
  - change (refset_wf (RefSet.mk [VNum 2] [])).
    split; [apply NoDup_singleton|]. split; [constructor|].
    split; repeat constructor.
Defined.

Lemma concat_lists_witness :
  ∃ n h' sn,
    concat (Some 3) 1 lists_heap = Ok (n, h') ∧
    schemas h' !! n = Some sn ∧
    member (VNum 1) (_whitelist sn) = true ∧
    member (VNum 2) (_whitelist sn) = false ∧
    member (VNum 2) (_blacklist sn) = true.
Proof.
  destruct (concat_lists lists_heap 1 3 _ _ _ _ _ _
              (proj1 lists_heap_live) (proj2 lists_heap_live)
              ltac:(lia) (or_introl eq_refl) eq_refl (List.Forall_nil _)
              (proj1 lists_heap_wf) (proj2 lists_heap_wf))
    as (n & h' & sn & E & Hn & Hall).
  exists n, h', sn. split; [exact E|]. split; [exact Hn|].
  split; [|split].
  - apply (proj1 (Hall (VNum 1))). split; [reflexivity|]. right. reflexivity.
  - destruct (member (VNum 2) (_whitelist sn)) eqn:Em; [|reflexivity].
    destruct (proj1 (proj1 (Hall (VNum 2))) Em) as [Hbad _].
    discriminate Hbad.
  - apply (proj2 (Hall (VNum 2))). split; [reflexivity|]. left. reflexivity.
Defined.

Lemma concat_tests_witness :
  ∃ n h' qn,
    concat (Some 2) 0 exclusive_pair_heap = Ok (n, h') ∧
    queue h' n = Some qn ∧
    (∃ pre', qn = pre' ++ [createValidation (normalize (OPTIONS x_test))]) ∧
    queue h' 2 = Some [x_test].
Proof.
  destruct (concat_tests exclusive_pair_heap 0 2 _ _ _ _ _ _
              exclusive_pair_receiver_live exclusive_pair_live
              ltac:(lia) (or_introl eq_refl) eq_refl x_test_registrable)
    as (n & h' & qn & E & Hq & _ & _ & Hlast & _ & Hb).
  exists n, h', qn. split; [exact E|]. split; [exact Hq|].
  split; [exact (Hlast [] x_test eq_refl)|exact Hb].
Defined.

Lemma concat_receiver_witness :
  ∃ n h' sn,
    concat (Some 2) 0 exclusive_pair_heap = Ok (n, h') ∧
    schemas h' !! n = Some sn ∧
    queue h' 0 = Some [] ∧
    exclusive_table h' 0 = Some {["x" := true]}.
Proof.
  destruct (concat_receiver exclusive_pair_heap 0 2 _ _ _ _ _ _
              exclusive_pair_receiver_live exclusive_pair_live
              ltac:(lia) (or_introl eq_refl) eq_refl x_test_registrable)
    as (n & h' & sn & E & Hn & _ & _ & Hq & Ht & _).
  exists n, h', sn. split; [exact E|]. split; [exact Hn|].
  split; [exact Hq|exact Ht].
Defined.



Lemma transform_runs_last_witness :
  ∃ l' h' s',
    transform 9 0 mixed_heap = Ok (l', h') ∧
    schemas h' !! l' = Some s' ∧
    transforms s' = [9] ∧
    _cast base s' (VNum 3) h' = Ok (VNum 3, h').
Proof.
  destruct (transform_runs_last base mixed_heap 0 mixed_schema [] ∅ 9
              mixed_heap_live)
    as (l' & h' & s' & E & Hs & Ht & Hc & _).
  exists l', h', s'. split; [exact E|]. split; [exact Hs|].
  split; [exact Ht|]. apply Hc; discriminate.
Defined.



Lemma oneOf_test_outcome_witness :
  ∃ l' h' s' t,
    oneOf [VNum 1; VNum 2] (LocaleMsg "oneOf") 0 mixed_heap = Ok (l', h') ∧
    schemas h' !! l' = Some s' ∧ _whitelistError s' = Some t ∧
    run_test base s' no_options VUndef t = true ∧
    run_test base s' no_options (VNum 2) t = true.
Proof.
  destruct (oneOf_test_outcome base no_options mixed_heap 0 mixed_schema []
              ∅ [VNum 1; VNum 2] (LocaleMsg "oneOf") mixed_heap_live)
    as (l' & h' & s' & t & E & Hs & Ht & _ & _ & Hu & Hin & _).
  exists l', h', s', t. split; [exact E|]. split; [exact Hs|].
  split; [exact Ht|]. split; [exact Hu|].
  apply Hin; [|reflexivity].
  apply list_elem_of_further, list_elem_of_here.
Defined.

Lemma nullable_isType_witness :
  ∃ l' h' s',
    nullable_set true 0 typed_heap = Ok (l', h') ∧
    schemas h' !! l' = Some s' ∧
    nullable (spec s') = true ∧
    isType number_kind s' VNull = true ∧
    run_test number_kind s' no_options VNull notType_test = true.
Proof.
  destruct (nullable_isType number_kind no_options typed_heap 0 _ _ _ true
              (typed_heap_live 0 ltac:(lia)))
    as (l' & h' & s' & E & Hs & Hn & Hi & Hr).
  exists l', h', s'. split; [exact E|]. split; [exact Hs|].
  split; [exact Hn|]. split; [exact Hi|exact (Hr eq_refl)].
Defined.
